(** * pymixconsole: the convolutional reverb processor

    A shallow embedding of [pymixconsole/processors/convreverb.py]:
    the class [ConvolutionalReverb] with its methods [load], [update] and
    [process], the numpy operations they call, and the properties of the
    partitioned convolution engine.

    Conventions of the embedding.
    - A numpy [float64] is idealised as an exact rational ([Q]), a
      [complex128] as a pair of rationals.  Python [int] is [Z].
    - A 2-D array [a] of shape [(rows, channels)] is the list of its
      channels, each the list of its samples: numpy's [a[r, c]] is
      [a !! c !! r].  A 3-D array of shape [(rows, channels, partitions)]
      is, per channel, the list of its partitions, each a list of [rows]
      values: numpy's [t[r, c, n]] is [t !! c !! n !! r].  A slice along
      axis 0 is thus a slice of every innermost list, [t[:, :, n]] is the
      [n]-th partition of every channel.
    - An array without channels does not record its number of rows, nor
      a channel without partitions the length of a partition; the
      theorems are about arrays with at least one channel and one
      partition.  The samples of a block are floats, an asset is read as
      a 2-D array of integer samples.
    - numpy's [fft], [ifft] and [power], and the contents of the asset
      files, are parameters of the model.
    - A method is a function from the object to the object and either a
      value or the exception raised; the object it returns is the object as
      the (possibly failing) call leaves it. *)

From Stdlib Require Import QArith Qround ZArith Lia.
From stdpp Require Import gmap strings list fin_maps.

Set Default Proof Using "Type".

(** ** Exceptions and results *)

Inductive exn : Type :=
| KeyError | ValueError | IndexError | ZeroDivisionError
| RuntimeError | FileNotFoundError.

Inductive result (A : Type) : Type :=
| Ok (a : A)
| Raise (e : exn).
Arguments Ok {A} a.
Arguments Raise {A} e.

#[global] Instance result_ret : MRet result := @Ok.
#[global] Instance result_bind : MBind result :=
  λ A B f m, match m with Ok a => f a | Raise e => Raise e end.

(** ** Numbers *)

Definition complex : Type := Q * Q.

Definition c0 : complex := (0%Q, 0%Q).
Definition cadd (a b : complex) : complex := (a.1 + b.1, a.2 + b.2)%Q.
Definition cmul (a b : complex) : complex :=
  (a.1 * b.1 - a.2 * b.2, a.1 * b.2 + a.2 * b.1)%Q.
Definition real (a : complex) : Q := a.1.

#[global] Instance Q_inhabited : Inhabited Q := populate 0%Q.

(** Python's [int(q)] on a float: truncation towards zero. *)
Definition int (q : Q) : Z := Z.quot (Qnum q) (Z.pos (Qden q)).

(** ** numpy arrays as nested lists *)

Section ndarray.
Context {A : Type}.

(** An index of a Python slice, clipped to the length of the axis. *)
Definition slice_index (len : nat) (i : Z) : nat :=
  Z.to_nat (if decide (i < 0)%Z then Z.max 0 (i + Z.of_nat len) else Z.min i (Z.of_nat len)).

(** [l[start:stop]], a missing bound being [None]. *)
Definition slice (start stop : option Z) (l : list A) : list A :=
  let a := from_option (slice_index (length l)) 0 start in
  let b := from_option (slice_index (length l)) (length l) stop in
  take (b - a) (drop a l).

(** Broadcasting one axis of length [length l] to length [n]. *)
Definition broadcast_to (n : nat) (l : list A) : result (list A) :=
  if decide (length l = n) then Ok l
  else match l with
       | [x] => Ok (replicate n x)
       | _ => Raise ValueError
       end.

(** The common length of two broadcast axes. *)
Definition broadcast_dim (n m : nat) : result nat :=
  if decide (n = m) then Ok n
  else if decide (n = 1) then Ok m
  else if decide (m = 1) then Ok n
  else Raise ValueError.

(** [np.roll(l, 1)] along the axis of [l]. *)
Definition roll1 (l : list A) : list A :=
  drop (length l - 1) l ++ take (length l - 1) l.

(** [np.pad(a, ((0, n), (0, 0)))] on a 2-D array, filling with [z]. *)
Definition pad_rows (z : A) (n : Z) (a : list (list A)) : result (list (list A)) :=
  if decide (n < 0)%Z then Raise ValueError
  else Ok ((λ ch, ch ++ replicate (Z.to_nat n) z) <$> a).

(** [a.shape[0]] and [a.shape[1]] of a 2-D array. *)
Definition shape0 (a : list (list A)) : nat := length (hd [] a).
Definition shape1 (a : list (list A)) : nat := length a.

(** A 2-D array of shape [(n, c)] is rectangular. *)
Definition has_shape2 (n c : nat) (a : list (list A)) : Prop :=
  length a = c ∧ Forall (λ ch, length ch = n) a.

(** A 3-D array of shape [(n, c, k)]. *)
Definition has_shape3 (n c k : nat) (t : list (list (list A))) : Prop :=
  length t = c ∧ Forall (has_shape2 n k) t.

End ndarray.

#[global] Arguments slice {A} start stop l : simpl never.
#[global] Arguments slice_index len i : simpl never.

(** [t[:, :, n] = blk] on a 3-D array [t], the block [blk] broadcast to the
    shape of the slice. *)
Definition assign_axis2 {A} (n : nat) (blk : list (list A))
    (t : list (list (list A))) : result (list (list (list A))) :=
  blk' ← broadcast_to (length t) blk;
  mapM (λ p : list (list A) * list A,
          match p.1 !! n with
          | None => Raise IndexError
          | Some old =>
              v ← broadcast_to (length old) p.2;
              Ok (<[n := v]> p.1)
          end)
       (zip t blk').

(** Elementwise binary operations with numpy's broadcasting, one list level
    per axis. *)
Definition broadcast_op {A B C} (g : A → B → result C)
    (a : list A) (b : list B) : result (list C) :=
  n ← broadcast_dim (length a) (length b);
  a' ← broadcast_to n a;
  b' ← broadcast_to n b;
  mapM (λ p, g p.1 p.2) (zip a' b').

(** The in-place variant [a op= b]: [b] is broadcast to the shape of [a]. *)
Definition broadcast_iop {A B} (g : A → B → result A)
    (a : list A) (b : list B) : result (list A) :=
  b' ← broadcast_to (length a) b;
  mapM (λ p, g p.1 p.2) (zip a b').

Definition op1 {A B C} (f : A → B → C) : list A → list B → result (list C) :=
  broadcast_op (λ x y, Ok (f x y)).
Definition op2 {A B C} (f : A → B → C) := broadcast_op (op1 f).
Definition op3 {A B C} (f : A → B → C) := broadcast_op (op2 f).

Definition iop1 {A B} (f : A → B → A) : list A → list B → result (list A) :=
  broadcast_iop (λ x y, Ok (f x y)).
Definition iop2 {A B} (f : A → B → A) := broadcast_iop (iop1 f).

(** [np.sum(t, axis=2)]: per channel, the sum of the partitions. *)
Definition sum_partitions (parts : list (list complex)) : list complex :=
  foldr (zip_with cadd) (replicate (length (hd [] parts)) c0) parts.
Definition sum_axis2 (t : list (list (list complex))) : list (list complex) :=
  sum_partitions <$> t.

(** [np.zeros(t.shape)] for a 3-D array [t]. *)
Definition zeros_like (t : list (list (list Q))) : list (list (list Q)) :=
  fmap (M := list) (fmap (M := list) (fmap (M := list) (λ _, 0%Q))) t.

(** ** The processor object *)

(** The values held by the parameter list of the processor
    ([self.parameters.<name>.value], and the options of [type]). *)
Record ParameterList : Type := {
  bypass : bool;
  type_value : string;
  type_options : list string;
  decay : Q;
  dry_mix : Q;
  wet_mix : Q;
}.

(** A block handed to [process]: a 1-D array of samples or a 2-D array. *)
Inductive ndarray : Type :=
| Arr1 (v : list Q)
| Arr2 (a : list (list Q)).

(** [self.h] holds the 2-D impulse while [update] shapes it and the 3-D
    array of its partitions afterwards. *)
Inductive impulse : Type :=
| Raw (a : list (list Q))
| Chopped (t : list (list (list Q))).

(** The attributes of a [ConvolutionalReverb]; the one-letter attributes
    [self.h], [self.H] and [self.X] are [self_h], [self_H] and [self_X]. *)
Record ConvolutionalReverb : Type := {
  parameters : ParameterList;
  block_size : Z;
  sample_rate : Z;
  impulses : gmap string (list (list Q));
  self_h : impulse;
  h_new : list (list (list Q));
  self_H : list (list (list complex));
  self_X : list (list (list complex));
  overlap : list (list Q);
}.

Definition set_impulses (v : gmap string (list (list Q))) (self : ConvolutionalReverb) :=
  {| parameters := parameters self; block_size := block_size self;
     sample_rate := sample_rate self; impulses := v; self_h := self_h self;
     h_new := h_new self; self_H := self_H self; self_X := self_X self;
     overlap := overlap self |}.
Definition set_h (v : impulse) (self : ConvolutionalReverb) :=
  {| parameters := parameters self; block_size := block_size self;
     sample_rate := sample_rate self; impulses := impulses self; self_h := v;
     h_new := h_new self; self_H := self_H self; self_X := self_X self;
     overlap := overlap self |}.
Definition set_h_new (v : list (list (list Q))) (self : ConvolutionalReverb) :=
  {| parameters := parameters self; block_size := block_size self;
     sample_rate := sample_rate self; impulses := impulses self;
     self_h := self_h self; h_new := v; self_H := self_H self;
     self_X := self_X self; overlap := overlap self |}.
Definition set_H (v : list (list (list complex))) (self : ConvolutionalReverb) :=
  {| parameters := parameters self; block_size := block_size self;
     sample_rate := sample_rate self; impulses := impulses self;
     self_h := self_h self; h_new := h_new self; self_H := v;
     self_X := self_X self; overlap := overlap self |}.
Definition set_X (v : list (list (list complex))) (self : ConvolutionalReverb) :=
  {| parameters := parameters self; block_size := block_size self;
     sample_rate := sample_rate self; impulses := impulses self;
     self_h := self_h self; h_new := h_new self; self_H := self_H self;
     self_X := v; overlap := overlap self |}.
Definition set_overlap (v : list (list Q)) (self : ConvolutionalReverb) :=
  {| parameters := parameters self; block_size := block_size self;
     sample_rate := sample_rate self; impulses := impulses self;
     self_h := self_h self; h_new := h_new self; self_H := self_H self;
     self_X := self_X self; overlap := v |}.

(** ** Methods: state and exceptions *)

Definition M (A : Type) : Type :=
  ConvolutionalReverb → ConvolutionalReverb * result A.

#[global] Instance M_ret : MRet M := λ A a self, (self, Ok a).
#[global] Instance M_bind : MBind M :=
  λ A B f m self,
    match m self with
    | (self', Ok a) => f a self'
    | (self', Raise e) => (self', Raise e)
    end.

Definition lift {A} (r : result A) : M A := λ self, (self, r).
Definition gets {A} (f : ConvolutionalReverb → A) : M A := λ self, (self, Ok (f self)).
Definition modify (g : ConvolutionalReverb → ConvolutionalReverb) : M unit :=
  λ self, (g self, Ok tt).

(** [for a in l: body(a)] *)
Fixpoint for_ {A} (l : list A) (body : A → M unit) : M unit :=
  match l with
  | [] => mret tt
  | a :: l' => body a ;; for_ l' body
  end.

(** [d[k]] on a Python dict. *)
Definition getitem {V} (d : gmap string V) (k : string) : result V :=
  match d !! k with
  | Some v => Ok v
  | None => Raise KeyError
  end.

(** ** Module constants *)

Definition ir_dir : string := "irs".

(** The dict [src], in the order of its keys. *)
Definition src_items : list (string * string) :=
  [ ("sm-room", "small_room.wav");
    ("md-room", "medium_room.wav");
    ("lg-room", "large_room.wav");
    ("hall", "hall.wav");
    ("plate", "plate.wav") ].
Definition src : gmap string string := list_to_map src_items.

(** What [wavfile.read] returns: the sample rate and the integer samples,
    one list per channel. *)
Record wav : Type := {
  rate : Z;
  frames : list (list Z);
}.

(** ** The methods of [ConvolutionalReverb] *)

Section Reverb.
(** [np.fft.fft] and [np.fft.ifft] along one axis, [np.power] on two
    floats, and the files of the package directory by path. *)
Variable fft : list Q → list complex.
Variable ifft : list complex → list complex.
Variable power : Q → Q → Q.
Variable disk : gmap string wav.

(** [os.path.join(curdir, "..", ir_dir, name)], relative to the package. *)
Definition ir_path (name : string) : string := ir_dir +:+ "/" +:+ name.

(** [wavfile.read(filename)] *)
Definition wavfile_read (filename : string) : result wav :=
  match disk !! filename with
  | Some w => Ok w
  | None => Raise FileNotFoundError
  end.

(** *** [load] *)

(** The body of the loop of [load], for the option [reverb]. *)
Definition load_one (reverb : string) : M unit :=
  p ← gets parameters;
  name ← lift (getitem src (type_value p));
  let filename := ir_path name in
  w ← lift (wavfile_read filename);
  sr ← gets sample_rate;
  if decide (rate w ≠ sr) then lift (Raise RuntimeError)
  else
    let h := fmap (M := list) (λ z : Z, (inject_Z z / 2 ^ 16)%Q) <$> frames w in
    let h := fmap (M := list) (λ v : Q, (v * 0.125)%Q) <$> h in
    modify (λ self, set_impulses (<[reverb := h]> (impulses self)) self).

Definition load : M unit :=
  p ← gets parameters;
  for_ (type_options p) load_one.

(** *** [update] *)

(** [np.power(0.1, (1 - np.arange(flen)/flen) * 5)] *)
Definition fade_gain (flen : Z) (i : nat) : Q :=
  power 0.1%Q ((1 - inject_Z (Z.of_nat i) / inject_Z flen) * 5)%Q.
Definition fade_gains (flen : Z) : list Q :=
  fade_gain flen <$> seq 0 (Z.to_nat flen).

(** [a[start:stop, :] *= g] on a 2-D array. *)
Definition imul_rows (start stop : Z) (a g : list (list Q)) : result (list (list Q)) :=
  part ← iop2 Qmult (slice (Some start) (Some stop) <$> a) g;
  Ok (zip_with
        (λ ch new,
           let i := slice_index (length ch) start in
           take i ch ++ new ++ drop (i + length new) ch)
        a part).

Definition fstart_of (d : Q) (a : list (list Q)) : Z :=
  int (d * inject_Z (Z.of_nat (shape0 a)))%Q.
Definition fstop_of (d : Q) (sr : Z) (a : list (list Q)) : Z :=
  Z.min (Z.of_nat (shape0 a)) (fstart_of d a + int (0.020 * inject_Z sr)%Q).

(** Lines 86 to 97: the fade out of the impulse held by [self.h]. *)
Definition fade_out (a : list (list Q)) : M (list (list Q)) :=
  p ← gets parameters;
  sr ← gets sample_rate;
  let fstart := fstart_of (decay p) a in
  let fstop := fstop_of (decay p) sr a in
  let flen := (fstop - fstart)%Z in
  if decide (0 < flen)%Z then
    let fade := fade_gains flen in
    let fade := [fade; fade] in
    faded ← lift (imul_rows fstart fstop a fade);
    modify (set_h (Raw faded));;
    let cut := slice None (Some fstop) <$> faded in
    modify (set_h (Raw cut));;
    mret cut
  else mret a.

(** [np.empty((rows, channels, partitions))]; every cell is written
    before it is read, the model fills it with zeros. *)
Definition np_empty (rows channels partitions : Z) : result (list (list (list Q))) :=
  if decide (rows < 0 ∨ partitions < 0)%Z then Raise ValueError
  else Ok (replicate (Z.to_nat channels)
             (replicate (Z.to_nat partitions) (replicate (Z.to_nat rows) 0%Q))).

(** Lines 113 to 116: the body of the loop over the partitions, on the
    padded impulse [a] that [self.h] holds. *)
Definition chop_one (a : list (list Q)) (n : nat) : M unit :=
  B ← gets block_size;
  let start := (Z.of_nat n * B)%Z in
  let stop := (start + B)%Z in
  blk ← lift (pad_rows 0%Q B (slice (Some start) (Some stop) <$> a));
  t ← gets h_new;
  t ← lift (assign_axis2 n blk t);
  modify (set_h_new t).

(** Lines 120 to 125: the new filter bank, history ring and overlap.
    The block size is positive here, the padding having succeeded. *)
Definition commit : M unit :=
  t ← gets h_new;
  modify (set_h (Chopped t));;
  modify (set_H (fmap (M := list) fft <$> t));;
  let X_init := zeros_like t in
  B ← gets block_size;
  let ovrlp_init := replicate (length t) (replicate (Z.to_nat B) 0%Q) in
  modify (set_X (fmap (M := list) fft <$> X_init));;
  modify (set_overlap ovrlp_init).

(** Lines 101 to 125: padding, partitioning and the transforms, on the
    shaped impulse [a] that [self.h] holds. *)
Definition build_filters (a : list (list Q)) : M unit :=
  B ← gets block_size;
  pad ← lift (if decide (B = 0)%Z then Raise ZeroDivisionError
              else Ok (B - Z.of_nat (shape0 a) `mod` B)%Z);
  a ← lift (pad_rows 0%Q pad a);
  modify (set_h (Raw a));;
  let nfilters := (Z.of_nat (shape0 a) / B)%Z in
  t ← lift (np_empty (B * 2) (Z.of_nat (shape1 a)) nfilters);
  modify (set_h_new t);;
  for_ (seq 0 (Z.to_nat nfilters)) (chop_one a);;
  commit.

Definition update (parameter_name : option string) : M unit :=
  p ← gets parameters;
  cache ← gets impulses;
  ir ← lift (getitem cache (type_value p));
  modify (set_h (Raw ir));;
  a ← fade_out ir;
  build_filters a.

(** *** [process] *)

(** [np.repeat(x, 2, axis=1)] *)
Definition repeat2_axis1 (a : list (list Q)) : list (list Q) :=
  a ≫= λ ch, [ch; ch].

(** Lines 42 to 46: a mono block is copied to both channels. *)
Definition to_stereo (x : ndarray) : list (list Q) :=
  let x := match x with Arr1 v => [v] | Arr2 a => a end in
  if decide (shape1 x = 1) then repeat2_axis1 x else x.

Definition process (x : ndarray) : M ndarray :=
  p ← gets parameters;
  if bypass p then mret x
  else
    let x := to_stereo x in
    B ← gets block_size;
    x ← lift (pad_rows 0%Q B x);
    modify (λ self, set_X (roll1 <$> self_X self) self);;
    X ← gets self_X;
    X ← lift (assign_axis2 0 (fft <$> x) X);
    modify (set_X X);;
    H ← gets self_H;
    XH ← lift (op3 cmul X H);
    let Y := sum_axis2 XH in
    let y := (λ ch, real <$> ifft ch) <$> Y in
    ov ← gets overlap;
    wet ← lift (op2 Qplus (slice None (Some B) <$> y) ov);
    let dry := slice None (Some B) <$> x in
    modify (set_overlap (slice (Some B) None <$> y));;
    let wet := fmap (M := list) (λ v, (v * wet_mix p)%Q) <$> wet in
    let dry := fmap (M := list) (λ v, (v * dry_mix p)%Q) <$> dry in
    out ← lift (op2 Qplus wet dry);
    mret (Arr2 out).

(** *** [__init__] *)

Definition default_parameters : ParameterList :=
  {| bypass := false; type_value := "sm-room";
     type_options := src_items.*1;
     decay := 1.0%Q; dry_mix := 0.8%Q; wet_mix := 0.1%Q |}.

(** The object after [super().__init__] and the choice of the parameter
    list; the attributes that [load] and [update] create are empty. *)
Definition new_object (params : option ParameterList) (bs sr : Z) : ConvolutionalReverb :=
  {| parameters := from_option id default_parameters params;
     block_size := bs; sample_rate := sr; impulses := ∅;
     self_h := Raw []; h_new := []; self_H := []; self_X := [];
     overlap := [] |}.

Definition init (params : option ParameterList) (bs sr : Z) : result ConvolutionalReverb :=
  match (load ;; update None) (new_object params bs sr) with
  | (self, Ok _) => Ok self
  | (_, Raise e) => Raise e
  end.
End Reverb.

(** ** The steps of the design, stated on one channel

    The partitions of a padded channel, the shift of the history ring, the
    accumulation over the partitions and the overlap-add, as the design
    describes them; the theorems below compare the methods with them. *)

(** Partition [n] of a channel: [B] samples from [n * B], then [B] zeros. *)
Definition spec_partition (B : nat) (ch : list Q) (n : nat) : list Q :=
  take B (drop (n * B) ch) ++ replicate B 0%Q.
Definition spec_partitions (B nf : nat) (ch : list Q) : list (list Q) :=
  spec_partition B ch <$> seq 0 nf.

(** The shaped channel: untouched up to [fstart], faded by [gain] over
    [flen] samples, cut after them. *)
Definition spec_shape (gain : nat → Q) (fstart flen : nat) (ch : list Q) : list Q :=
  take fstart ch ++ imap (λ i v, (v * gain i)%Q) (take flen (drop fstart ch)).

(** The ring after a block: the newest transform first, the oldest gone. *)
Definition spec_ring (newest : list complex) (ring : list (list complex)) :
    list (list complex) :=
  newest :: take (length ring - 1) ring.

(** Bin [r] of the accumulator: the sum over the partitions [k] of
    [ring[k][r] * bank[k][r]]. *)
Definition spec_Y (rows : nat) (ring bank : list (list complex)) : list complex :=
  (λ r, foldr cadd c0
          ((λ k, cmul ((ring !!! k) !!! r) ((bank !!! k) !!! r)) <$> seq 0 (length bank)))
    <$> seq 0 rows.

Definition spec_wet (B : nat) (y ov : list Q) : list Q :=
  zip_with Qplus (take B y) ov.
Definition spec_out (wetMix dryMix : Q) (wet dry : list Q) : list Q :=
  zip_with (λ w d, (w * wetMix + d * dryMix)%Q) wet dry.

(** The impulse that [load] makes of the samples of an asset. *)
Definition scaled (w : wav) : list (list Q) :=
  fmap (M := list) (λ v : Q, (v * 0.125)%Q)
    <$> (fmap (M := list) (λ z : Z, (inject_Z z / 2 ^ 16)%Q) <$> frames w).

(** The partitions of a channel after [k] rounds of the loop: [k]
    partitions written, the rest as [np_empty] left them. *)
Definition chopped_upto (B nf k : nat) (ch : list Q) : list (list Q) :=
  (spec_partition B ch <$> seq 0 k) ++ replicate (nf - k) (replicate (B + B) 0%Q).

(** The impulse after the fade out, for a decay within [0, 1]. *)
Definition shaped power (d : Q) (sr : Z) (ir : list (list Q)) : list (list Q) :=
  let fstart := fstart_of d ir in
  let fstop := fstop_of d sr ir in
  if decide (fstart < fstop)%Z then
    spec_shape (fade_gain power (fstop - fstart)) (Z.to_nat fstart)
      (Z.to_nat (fstop - fstart)) <$> ir
  else ir.

(** The object that a call of [update] leaves when it returns, from the
    partitions [t] of the impulse. *)
Definition rebuilt fft (B : nat) (t : list (list (list Q))) (self : ConvolutionalReverb) :
    ConvolutionalReverb :=
  set_overlap (replicate (length t) (replicate B 0%Q))
    (set_X (fmap (M := list) fft <$> zeros_like t)
       (set_H (fmap (M := list) fft <$> t)
          (set_h (Chopped t) (set_h_new t self)))).

(** ** Predicates on the object *)

(** What [commit] writes, from the partitions held by [h_new]. *)
Definition committed fft (self : ConvolutionalReverb) : Prop :=
  self_h self = Chopped (h_new self) ∧
  self_H self = (fmap (M := list) fft <$> h_new self) ∧
  self_X self = (fmap (M := list) fft <$> zeros_like (h_new self)) ∧
  overlap self
  = replicate (length (h_new self)) (replicate (Z.to_nat (block_size self)) 0%Q).

(** What [process] may change: the history ring and the overlap buffer. *)
Definition frame (self self' : ConvolutionalReverb) : Prop :=
  parameters self' = parameters self ∧
  block_size self' = block_size self ∧
  sample_rate self' = sample_rate self ∧
  impulses self' = impulses self ∧
  self_h self' = self_h self ∧
  h_new self' = h_new self ∧
  self_H self' = self_H self.

(** A 3-D array is rectangular. *)
Definition rect3 {A} (t : list (list (list A))) : Prop :=
  ∃ n c k, has_shape3 n c k t.

(** [X] and [H] are arrays of one shape. *)
Definition XH_same_shape (self : ConvolutionalReverb) : Prop :=
  ∃ n c k, has_shape3 n c k (self_X self) ∧ has_shape3 n c k (self_H self).

(** The object is ready for blocks of [B] samples in [C] channels, with
    [nf] partitions. *)
Definition engine_ready (B C nf : nat) (self : ConvolutionalReverb) : Prop :=
  block_size self = Z.of_nat B ∧
  0 < nf ∧
  has_shape3 (B + B) C nf (self_X self) ∧
  has_shape3 (B + B) C nf (self_H self) ∧
  has_shape2 B C (overlap self).

(** ** Hoare triples for the methods

    [hoare P m Q E]: from an object satisfying [P], the call [m] returns a
    value [a] and an object satisfying [Q a], or raises and leaves an
    object satisfying [E]. *)

Definition hoare {A} (P : ConvolutionalReverb → Prop) (m : M A)
    (Q : A → ConvolutionalReverb → Prop) (E : ConvolutionalReverb → Prop) : Prop :=
  ∀ self, P self →
    match m self with
    | (self', Ok a) => Q a self'
    | (self', Raise _) => E self'
    end.

(** ** Exact transforms for small examples

    The discrete Fourier transform over the fourth roots of unity: it is
    the transform of numpy on arrays of length 1, 2 and 4, where every
    twiddle factor is one of 1, -i, -1, i.  [pow_int] is [np.power] on the
    exponents that are integers.  The examples use no other case. *)

Definition unit_root4 (j : nat) : complex :=
  match j mod 4 with
  | 0 => (1, 0)%Q
  | 1 => (0, -1)%Q
  | 2 => (-1, 0)%Q
  | _ => (0, 1)%Q
  end.

Definition dft (v : list Q) : list complex :=
  let N := length v in
  (λ k, foldr cadd c0
          (imap (λ n x, cmul (x, 0%Q) (unit_root4 (k * n * (4 / N)))) v))
    <$> seq 0 N.

Definition idft (v : list complex) : list complex :=
  let N := length v in
  (λ k, let s := foldr cadd c0
                   (imap (λ n x, cmul x (unit_root4 (4 - (k * n * (4 / N)) mod 4))) v) in
        (s.1 / inject_Z (Z.of_nat N), s.2 / inject_Z (Z.of_nat N))%Q)
    <$> seq 0 N.

Definition pow_int (b e : Q) : Q := (b ^ Qfloor e)%Q.

(** Two assets at 50 Hz: an impulse of three samples, which [load] turns
    into [1, 1/2, 0], and a delayed impulse of four samples. *)
Definition example_wav : wav :=
  {| rate := 50; frames := [[524288; 262144; 0]; [524288; 262144; 0]]%Z |}.
Definition example_hall : wav :=
  {| rate := 50; frames := [[0; 524288; 0; 0]; [0; 524288; 0; 0]]%Z |}.

Definition example_disk : gmap string wav :=
  {[ "irs/small_room.wav" := example_wav; "irs/hall.wav" := example_hall ]}.

(** The same package with [hall.wav] recorded at 48 Hz. *)
Definition example_disk_48 : gmap string wav :=
  <["irs/hall.wav" :=
      {| rate := 48; frames := [[0; 524288; 0; 0]; [0; 524288; 0; 0]]%Z |}]>
    example_disk.

Definition example_parameters (d : Q) (byp : bool) : ParameterList :=
  {| bypass := byp; type_value := "sm-room";
     type_options := ["sm-room"; "hall"];
     decay := d; dry_mix := 0.8%Q; wet_mix := 0.1%Q |}.

(** The processor built on [example_disk] with blocks of two samples. *)
Definition example_reverb (d : Q) (byp : bool) : ConvolutionalReverb :=
  match init dft pow_int example_disk (Some (example_parameters d byp)) 2 50 with
  | Ok self => self
  | Raise _ => new_object (Some (example_parameters d byp)) 2 50
  end.

(** The same processor after one block. *)
Definition example_played (d : Q) : ConvolutionalReverb :=
  (process dft idft (Arr1 [3; 5]%Q) (example_reverb d false)).1.

Definition example_ir : list (list Q) := [[1; 0; 0]; [1; 0; 0]]%Q.

(** A processor whose cache holds a one-channel impulse, and the processor
    of [example_played] with an empty cache. *)
Definition example_mono (d : Q) : ConvolutionalReverb :=
  set_impulses {[ "sm-room" := [[1; 0.5; 0]]%Q ]}
    (new_object (Some (example_parameters d false)) 2 50).
Definition example_uncached : ConvolutionalReverb :=
  set_impulses ∅ (example_played 1).

(** The processor of [example_played] after the host has set [bypass] and
    the two mixes. *)
Definition example_remixed : ConvolutionalReverb :=
  {| parameters :=
       {| bypass := true; type_value := "sm-room";
          type_options := ["sm-room"; "hall"];
          decay := 0.5%Q; dry_mix := 0%Q; wet_mix := 1%Q |};
     block_size := 2; sample_rate := 50;
     impulses := impulses (example_played 0.5);
     self_h := self_h (example_played 0.5);
     h_new := h_new (example_played 0.5);
     self_H := self_H (example_played 0.5);
     self_X := self_X (example_played 0.5);
     overlap := overlap (example_played 0.5) |}.

(** * Properties *)

(** ** Results and broadcasting *)

Lemma mapM_Ok {A B} (f : A → result B) (g : A → B) (l : list A) :
  Forall (λ x, f x = Ok (g x)) l → mapM f l = Ok (g <$> l).
Proof.
  induction 1 as [|x l Hx _ IH]; [reflexivity|].
  cbn. rewrite Hx. cbn. rewrite IH. reflexivity.
Qed.

Lemma mapM_Ok_inv {A B} (f : A → result B) (l : list A) (l' : list B) :
  mapM f l = Ok l' → Forall2 (λ x y, f x = Ok y) l l'.
Proof.
  revert l'. induction l as [|x l IH]; intros l' Hm.
  - cbn in Hm. injection Hm as <-. constructor.
  - cbn in Hm. destruct (f x) as [y|e] eqn:Hx; [|discriminate].
    cbn in Hm. destruct (mapM f l) as [k|e]; [|discriminate].
    cbn in Hm. injection Hm as <-. constructor; auto.
Qed.

Lemma broadcast_to_same {A} n (l : list A) :
  length l = n → broadcast_to n l = Ok l.
Proof. intros Hl. unfold broadcast_to. rewrite decide_True; done. Qed.

Lemma broadcast_to_length {A} n (l l' : list A) :
  broadcast_to n l = Ok l' → length l' = n.
Proof.
  unfold broadcast_to. destruct (decide (length l = n)) as [Hl|Hl].
  - intros [= <-]. exact Hl.
  - destruct l as [|x [|??]]; try discriminate.
    intros [= <-]. apply length_replicate.
Qed.

Lemma broadcast_dim_same n : broadcast_dim n n = Ok n.
Proof. unfold broadcast_dim. rewrite decide_True; done. Qed.

Lemma broadcast_op_same {A B C} (g : A → B → result C) (f : A → B → C) a b :
  Forall2 (λ x y, g x y = Ok (f x y)) a b →
  broadcast_op g a b = Ok (zip_with f a b).
Proof.
  intros Hab. unfold broadcast_op.
  pose proof (Forall2_length _ _ _ Hab) as Hlen.
  rewrite <- Hlen, broadcast_dim_same. cbn.
  rewrite !broadcast_to_same by done. cbn.
  rewrite (mapM_Ok _ (λ p, f p.1 p.2)).
  - f_equal. clear Hlen. induction Hab; cbn; congruence.
  - clear Hlen. induction Hab; cbn; constructor; auto.
Qed.

Lemma broadcast_iop_same {A B} (g : A → B → result A) (f : A → B → A) a b :
  Forall2 (λ x y, g x y = Ok (f x y)) a b →
  broadcast_iop g a b = Ok (zip_with f a b).
Proof.
  intros Hab. unfold broadcast_iop.
  pose proof (Forall2_length _ _ _ Hab) as Hlen.
  rewrite broadcast_to_same by done. cbn.
  rewrite (mapM_Ok _ (λ p, f p.1 p.2)).
  - f_equal. clear Hlen. induction Hab; cbn; congruence.
  - clear Hlen. induction Hab; cbn; constructor; auto.
Qed.

Lemma op1_same {A B C} (f : A → B → C) a b :
  length a = length b → op1 f a b = Ok (zip_with f a b).
Proof.
  intros Hlen. apply broadcast_op_same.
  apply Forall2_same_length_lookup_2; [done|]. reflexivity.
Qed.

Lemma op2_same {A B C} (f : A → B → C) a b :
  Forall2 (λ x y, length x = length y) a b →
  op2 f a b = Ok (zip_with (zip_with f) a b).
Proof.
  intros Hab. apply broadcast_op_same.
  eapply Forall2_impl; [exact Hab|]. intros x y Hxy. by apply op1_same.
Qed.

Lemma op3_same {A B C} (f : A → B → C) a b :
  Forall2 (Forall2 (λ x y, length x = length y)) a b →
  op3 f a b = Ok (zip_with (zip_with (zip_with f)) a b).
Proof.
  intros Hab. apply broadcast_op_same.
  eapply Forall2_impl; [exact Hab|]. intros x y Hxy. by apply op2_same.
Qed.

Lemma iop2_same {A B} (f : A → B → A) a b :
  Forall2 (λ x y, length x = length y) a b →
  iop2 f a b = Ok (zip_with (zip_with f) a b).
Proof.
  intros Hab. apply broadcast_iop_same.
  eapply Forall2_impl; [exact Hab|]. intros x y Hxy.
  apply broadcast_iop_same.
  apply Forall2_same_length_lookup_2; [done|]. reflexivity.
Qed.

(** ** Python slices *)

Lemma slice_to {A} (b : Z) (l : list A) :
  (0 ≤ b)%Z → slice None (Some b) l = take (Z.to_nat b) l.
Proof.
  intros Hb. unfold slice, slice_index. cbn.
  rewrite decide_False by lia. rewrite Nat.sub_0_r, drop_0.
  destruct (decide (b ≤ Z.of_nat (length l))%Z).
  - by rewrite Z.min_l.
  - rewrite Z.min_r, Nat2Z.id by lia. rewrite !take_ge; [done|lia..].
Qed.

Lemma slice_from {A} (a : Z) (l : list A) :
  (0 ≤ a)%Z → slice (Some a) None l = drop (Z.to_nat a) l.
Proof.
  intros Ha. unfold slice, slice_index. cbn.
  rewrite decide_False by lia.
  destruct (decide (a ≤ Z.of_nat (length l))%Z).
  - rewrite Z.min_l by lia. apply take_ge. rewrite length_drop. lia.
  - rewrite Z.min_r, Nat2Z.id by lia.
    rewrite Nat.sub_diag, take_0, drop_ge; [done|lia].
Qed.

Lemma slice_range {A} (a b : Z) (l : list A) :
  (0 ≤ a ≤ b)%Z →
  slice (Some a) (Some b) l = take (Z.to_nat b - Z.to_nat a) (drop (Z.to_nat a) l).
Proof.
  intros Hab. unfold slice, slice_index. cbn.
  rewrite !decide_False by lia.
  destruct (decide (b ≤ Z.of_nat (length l))%Z).
  - by rewrite !Z.min_l by lia.
  - rewrite (Z.min_r b), Nat2Z.id by lia.
    destruct (decide (a ≤ Z.of_nat (length l))%Z).
    + rewrite Z.min_l by lia.
      rewrite !take_ge; [done|rewrite length_drop; lia..].
    + rewrite Z.min_r, Nat2Z.id by lia.
      rewrite Nat.sub_diag, take_0, drop_ge, take_nil; [done|lia].
Qed.

(** ** Writing one partition of a 3-D array *)

Lemma assign_axis2_Ok {A} (i : nat) (blk : list (list A)) (t : list (list (list A))) :
  Forall2 (λ parts v, ∃ old, parts !! i = Some old ∧ length old = length v) t blk →
  assign_axis2 i blk t = Ok (zip_with (λ parts v, <[i := v]> parts) t blk).
Proof.
  intros Htb. unfold assign_axis2.
  pose proof (Forall2_length _ _ _ Htb) as Hlen.
  rewrite broadcast_to_same by done. cbn.
  rewrite (mapM_Ok _ (λ p, <[i := p.2]> p.1)).
  - f_equal. clear Hlen. induction Htb; cbn; congruence.
  - clear Hlen. induction Htb as [|parts v t blk (old & Hold & Hl) _ IH]; cbn;
      constructor; auto.
    cbn. rewrite Hold. rewrite broadcast_to_same by done. reflexivity.
Qed.

Lemma assign_axis2_shape {A} (i n c k : nat) (blk : list (list A)) t t' :
  has_shape3 n c k t → assign_axis2 i blk t = Ok t' → has_shape3 n c k t'.
Proof.
  intros [Hc Ht]. unfold assign_axis2.
  destruct (broadcast_to (length t) blk) as [blk'|] eqn:Hb; [|discriminate].
  cbn. intros Hm%mapM_Ok_inv.
  apply broadcast_to_length in Hb.
  split.
  - rewrite <- (Forall2_length _ _ _ Hm), length_zip_with. lia.
  - apply Forall_lookup_2. intros j parts' Hj.
    destruct (Forall2_lookup_r _ _ _ _ _ Hm Hj) as ([parts v] & Hz & Hf).
    apply lookup_zip_with_Some in Hz as (? & ? & [= <- <-] & Hp & Hv).
    cbn in Hf. destruct (parts !! i) as [old|] eqn:Hold; [|discriminate].
    destruct (broadcast_to (length old) v) as [v'|] eqn:Hv'; [|discriminate].
    cbn in Hf. injection Hf as <-.
    apply broadcast_to_length in Hv'.
    pose proof (Forall_lookup_1 _ _ _ _ Ht Hp) as [Hk Hparts].
    split; [by rewrite length_insert|].
    apply Forall_insert; [done|].
    rewrite Hv'. exact (Forall_lookup_1 _ _ _ _ Hparts Hold).
Qed.

(** ** Rules for the Hoare triples *)

Lemma hoare_bind {A B} P (m : M A) Q (f : A → M B) R E :
  hoare P m Q E → (∀ a, hoare (Q a) (f a) R E) → hoare P (m ≫= f) R E.
Proof.
  intros Hm Hf self HP. specialize (Hm self HP).
  unfold mbind, M_bind. destruct (m self) as [self' [a|e]]; [|done].
  by apply Hf.
Qed.

Lemma hoare_lift {A} (P : ConvolutionalReverb → Prop) (r : result A)
    (E : ConvolutionalReverb → Prop) :
  (∀ self, P self → E self) →
  hoare P (lift r) (λ a self, r = Ok a ∧ P self) E.
Proof. intros HE self HP. unfold lift. destruct r; auto. Qed.

Lemma hoare_gets {A} (P : ConvolutionalReverb → Prop) (f : ConvolutionalReverb → A) E :
  hoare P (gets f) (λ a self, a = f self ∧ P self) E.
Proof. intros self HP. by cbn. Qed.

Lemma hoare_modify (P Q : ConvolutionalReverb → Prop) g E :
  (∀ self, P self → Q (g self)) → hoare P (modify g) (λ _, Q) E.
Proof. intros Hg self HP. cbn. by apply Hg. Qed.

Lemma hoare_conseq {A} (P P' : ConvolutionalReverb → Prop) (m : M A)
    (Q Q' : A → ConvolutionalReverb → Prop) (E E' : ConvolutionalReverb → Prop) :
  hoare P' m Q' E' →
  (∀ self, P self → P' self) →
  (∀ a self, Q' a self → Q a self) →
  (∀ self, E' self → E self) →
  hoare P m Q E.
Proof.
  intros Hm HP HQ HE self Hs. specialize (Hm self (HP _ Hs)).
  destruct (m self) as [self' [a|e]]; auto.
Qed.

Lemma hoare_for {A} (I : ConvolutionalReverb → Prop) (l : list A) body E :
  (∀ a, hoare I (body a) (λ _, I) E) → hoare I (for_ l body) (λ _, I) E.
Proof.
  intros Hbody. induction l as [|a l IH]; cbn [for_].
  - intros self HI. by cbn.
  - eapply hoare_bind; [apply Hbody|]. intros ?. exact IH.
Qed.

Lemma hoare_if {A} (b : Prop) `{!Decision b} P (m1 m2 : M A) Q E :
  (b → hoare P m1 Q E) → (¬ b → hoare P m2 Q E) →
  hoare P (if decide b then m1 else m2) Q E.
Proof. intros H1 H2. destruct (decide b); auto. Qed.

(** ** Invariant-style rules: every step keeps [P] *)

Lemma hoare_gets_inv {A} (P : ConvolutionalReverb → Prop) (f : ConvolutionalReverb → A) E :
  hoare P (gets f) (λ _, P) E.
Proof. intros self HP. by cbn. Qed.

Lemma hoare_lift_inv {A} (P : ConvolutionalReverb → Prop) (r : result A)
    (E : ConvolutionalReverb → Prop) :
  (∀ self, P self → E self) →
  hoare P (lift r) (λ _, P) E.
Proof. intros HE self HP. unfold lift. destruct r; auto. Qed.

Lemma hoare_ret_inv {A} (P : ConvolutionalReverb → Prop) (a : A) E :
  hoare P (mret a) (λ _, P) E.
Proof. intros self HP. by cbn. Qed.

Lemma hoare_modify_inv (P : ConvolutionalReverb → Prop) g E :
  (∀ self, P self → P (g self)) → hoare P (modify g) (λ _, P) E.
Proof. apply hoare_modify. Qed.

Ltac inv_step :=
  lazymatch goal with
  | |- hoare _ (_ ≫= _) _ _ => eapply hoare_bind; [|intros ?]
  | |- hoare _ (gets _) _ _ => apply hoare_gets_inv
  | |- hoare _ (lift _) _ _ => apply hoare_lift_inv; intros ? ?
  | |- hoare _ (mret _) _ _ => apply hoare_ret_inv
  | |- hoare _ (modify _) _ _ => apply hoare_modify_inv; intros ? ?
  | |- hoare _ (for_ _ _) _ _ => apply hoare_for; intros ?
  | |- hoare _ (if decide _ then _ else _) _ _ => apply hoare_if; intros ?
  end.

(** ** [process] *)

(** C9: with [bypass] set, [process] returns the block it was given, as
    it was given (mono blocks stay mono, nothing is padded or mixed), and
    leaves the object as it was, whatever the other parameters are. *)
Theorem process_bypass fft ifft (x : ndarray) (self : ConvolutionalReverb) :
  bypass (parameters self) = true →
  process fft ifft x self = (self, Ok x).
Proof. intros Hb. unfold process, mbind, M_bind, gets. rewrite Hb. reflexivity. Qed.

Lemma process_bypass_witness :
  bypass (parameters (example_reverb 1 true)) = true ∧
  process dft idft (Arr1 [3; 5]%Q) (example_reverb 1 true)
  = (example_reverb 1 true, Ok (Arr1 [3; 5]%Q)).
Proof.
  split; [vm_compute; reflexivity|].
  apply process_bypass. vm_compute. reflexivity.
Defined.

(** C10: a call to [process] that is not bypassed leaves the filter bank
    [H], the partitioned impulse [h] (and [h_new]), the cache of impulses,
    the block size, the sample rate and the parameters as they were,
    whether it returns or raises: it writes [X] and [overlap] only. *)
Theorem process_frame fft ifft (x : ndarray) (self : ConvolutionalReverb) :
  bypass (parameters self) = false →
  frame self (process fft ifft x self).1.
Proof.
  intros _.
  assert (hoare (frame self) (process fft ifft x) (λ _, frame self) (frame self)) as Hh.
  { unfold process. inv_step; [inv_step|].
    destruct (bypass _); [inv_step|].
    repeat inv_step; unfold frame in *; cbn; tauto. }
  specialize (Hh self). 
  destruct (process fft ifft x self) as [self' [a|e]]; apply Hh; by repeat split.
Qed.

Lemma process_frame_witness :
  bypass (parameters (example_reverb 1 false)) = false ∧
  frame (example_reverb 1 false)
    (process dft idft (Arr1 [3; 5]%Q) (example_reverb 1 false)).1.
Proof.
  split; [vm_compute; reflexivity|].
  apply process_frame. vm_compute. reflexivity.
Defined.

(** ** [load] *)

(** The loop of [load] reads the asset of the selected [type] once per
    option and stores it under every option. *)
Lemma load_loop_Ok disk (opts : list string) (self : ConvolutionalReverb) name w :
  src !! type_value (parameters self) = Some name →
  disk !! ir_path name = Some w →
  rate w = sample_rate self →
  for_ opts (load_one disk) self
  = (set_impulses (foldl (λ m reverb, <[reverb := scaled w]> m) (impulses self) opts) self,
     Ok tt).
Proof.
  intros Hsrc Hdisk Hrate. revert self Hsrc Hrate.
  induction opts as [|reverb opts IH]; intros self Hsrc Hrate.
  - cbn. by destruct self.
  - cbn [for_ foldl]. unfold mbind at 1, M_bind at 1.
    unfold load_one at 1.
    unfold mbind, M_bind, gets, lift, getitem, wavfile_read, modify.
    rewrite Hsrc, Hdisk. rewrite decide_False by (intros ?; congruence).
    fold (scaled w).
    by rewrite (IH (set_impulses (<[reverb:=scaled w]> (impulses self)) self)).
Qed.

Lemma load_Ok disk (self : ConvolutionalReverb) name w :
  src !! type_value (parameters self) = Some name →
  disk !! ir_path name = Some w →
  rate w = sample_rate self →
  load disk self
  = (set_impulses
       (foldl (λ m reverb, <[reverb := scaled w]> m) (impulses self)
          (type_options (parameters self))) self,
     Ok tt).
Proof.
  intros Hsrc Hdisk Hrate. unfold load.
  unfold mbind at 1, M_bind at 1, gets at 1.
  by eapply load_loop_Ok.
Qed.

Lemma lookup_foldl_insert {V} (v : V) (opts : list string) (m : gmap string V) k :
  k ∈ opts → foldl (λ m reverb, <[reverb := v]> m) m opts !! k = Some v.
Proof.
  revert m. induction opts as [|o opts IH] using rev_ind; intros m Hk.
  - by apply elem_of_nil in Hk.
  - rewrite foldl_app. cbn. destruct (decide (o = k)) as [->|Hne].
    + apply lookup_insert_eq.
    + rewrite lookup_insert_ne by done. apply IH.
      apply elem_of_app in Hk as [Hk|Hk]; [done|].
      apply list_elem_of_singleton in Hk. congruence.
Qed.

(** C6, what the code does: when [load] returns, every option is cached
    with the impulse made of the asset of the selected [type]; the asset
    of the option itself is not read.  On [example_disk], with [sm-room]
    selected, the entry of [hall] is the impulse of [small_room.wav], not
    that of [hall.wav]. *)
Theorem load_caches_selected_asset disk (self : ConvolutionalReverb) name w reverb :
  src !! type_value (parameters self) = Some name →
  disk !! ir_path name = Some w →
  rate w = sample_rate self →
  reverb ∈ type_options (parameters self) →
  ∃ self', load disk self = (self', Ok tt) ∧
           impulses self' !! reverb = Some (scaled w).
Proof.
  intros Hsrc Hdisk Hrate Hin. eexists. split; [by eapply load_Ok|].
  cbn. by apply lookup_foldl_insert.
Qed.

Lemma load_caches_selected_asset_witness :
  ∃ self',
    example_disk !! "irs/hall.wav" = Some example_hall ∧
    example_disk !! "irs/small_room.wav" = Some example_wav ∧
    load example_disk (new_object (Some (example_parameters 1 false)) 2 50)
    = (self', Ok tt) ∧
    impulses self' !! "hall" = Some (scaled example_wav) ∧
    scaled example_wav ≠ scaled example_hall.
Proof.
  destruct (load_caches_selected_asset example_disk
              (new_object (Some (example_parameters 1 false)) 2 50)
              "small_room.wav" example_wav "hall") as (self' & Hload & Hhall).
  - vm_compute. reflexivity.
  - vm_compute. reflexivity.
  - reflexivity.
  - vm_compute. right. left.
  - exists self'. split; [vm_compute; reflexivity|].
    split; [vm_compute; reflexivity|].
    split; [exact Hload|]. split; [exact Hhall|].
    vm_compute. discriminate.
Defined.

(** C8, what the code does: the sample rate of an asset that is not the
    one of the selected [type] is never compared.  On [example_disk_48],
    [hall.wav] is at 48 Hz, the processor at 50 Hz, and [load] returns
    with an entry for [hall]. *)
Theorem load_ignores_other_rates :
  ∃ hall self',
    example_disk_48 !! "irs/hall.wav" = Some hall ∧
    rate hall ≠ 50%Z ∧
    load example_disk_48 (new_object (Some (example_parameters 1 false)) 2 50)
    = (self', Ok tt) ∧
    is_Some (impulses self' !! "hall").
Proof.
  eexists _, _. split; [vm_compute; reflexivity|].
  split; [vm_compute; discriminate|].
  split; [vm_compute; reflexivity|].
  vm_compute. eexists. reflexivity.
Qed.

(** ** The fade window *)

Lemma int_floor (q : Q) : (0 <= q)%Q → int q = Qfloor q.
Proof.
  destruct q as [n d]. unfold Qle, int, Qfloor. cbn. intros Hn.
  apply Z.quot_div_nonneg; lia.
Qed.

Lemma int_nonneg (q : Q) : (0 <= q)%Q → (0 ≤ int q)%Z.
Proof.
  intros Hq. rewrite int_floor by done.
  change 0%Z with (Qfloor 0). by apply Qfloor_resp_le.
Qed.

Lemma int_scale_bounds (d : Q) (L : nat) :
  (0 <= d <= 1)%Q → (0 ≤ int (d * inject_Z (Z.of_nat L)) ≤ Z.of_nat L)%Z.
Proof.
  intros [Hd0 Hd1].
  assert (0 <= inject_Z (Z.of_nat L))%Q as HL.
  { change 0%Q with (inject_Z 0). rewrite <- Zle_Qle. lia. }
  split.
  - apply int_nonneg. by apply Qmult_le_0_compat.
  - rewrite int_floor by (by apply Qmult_le_0_compat).
    rewrite <- (Qfloor_Z (Z.of_nat L)) at 2. apply Qfloor_resp_le.
    rewrite <- (Qmult_1_l (inject_Z (Z.of_nat L))) at 2.
    by apply Qmult_le_compat_r.
Qed.

Lemma fade_samples_nonneg (sr : Z) : (0 ≤ sr)%Z → (0 ≤ int (0.020 * inject_Z sr))%Z.
Proof.
  intros Hsr. apply int_nonneg. apply Qmult_le_0_compat; [done|].
  change 0%Q with (inject_Z 0). by rewrite <- Zle_Qle.
Qed.

Lemma fade_window_bounds (d : Q) (sr : Z) (a : list (list Q)) :
  (0 <= d <= 1)%Q → (0 ≤ sr)%Z →
  (0 ≤ fstart_of d a ≤ fstop_of d sr a)%Z ∧
  (fstop_of d sr a ≤ Z.of_nat (shape0 a))%Z.
Proof.
  intros Hd Hsr. unfold fstop_of, fstart_of.
  pose proof (int_scale_bounds d (shape0 a) Hd).
  pose proof (fade_samples_nonneg sr Hsr). lia.
Qed.

(** C7 as stated fails: nothing clamps [decay].  With [decay = 2] on an
    impulse of three samples [fstart] is 6, and with [decay = -1/3] the
    rebuilt impulse differs from the one [decay = 0] gives. *)
Lemma decay_not_clamped :
  fstart_of 2 example_ir = 6%Z ∧
  ¬ (0 ≤ fstart_of 2 example_ir ≤ Z.of_nat (shape0 example_ir))%Z ∧
  self_h (example_reverb (-1 # 3) false) ≠ self_h (example_reverb 0 false).
Proof.
  split; [reflexivity|]. split.
  - vm_compute. intros [_ Hle]. by apply Hle.
  - vm_compute. discriminate.
Qed.

(** ** Running a method step by step *)

Lemma run_bind {A B} (m : M A) (f : A → M B) self self' a :
  m self = (self', Ok a) → (m ≫= f) self = f a self'.
Proof. intros Hm. unfold mbind, M_bind. by rewrite Hm. Qed.

Lemma run_lift {A} (r : result A) a self : r = Ok a → lift r self = (self, Ok a).
Proof. by intros ->. Qed.

Lemma set_h_new_id self t : h_new self = t → set_h_new t self = self.
Proof. intros <-. by destruct self. Qed.

(** ** Partitioning the padded impulse *)

Lemma spec_partition_length B ch n :
  (n + 1) * B ≤ length ch → length (spec_partition B ch n) = B + B.
Proof.
  intros Hn. unfold spec_partition.
  rewrite length_app, length_take, length_drop, length_replicate. lia.
Qed.

Lemma chop_one_Ok (a : list (list Q)) (B nf n : nat) self :
  block_size self = Z.of_nat B →
  n < nf →
  Forall (λ ch, length ch = nf * B) a →
  h_new self = chopped_upto B nf n <$> a →
  chop_one a n self = (set_h_new (chopped_upto B nf (S n) <$> a) self, Ok tt).
Proof.
  intros HB Hn Ha Ht. unfold chop_one.
  erewrite run_bind by reflexivity. rewrite HB.
  assert (pad_rows 0%Q (Z.of_nat B)
            (slice (Some (Z.of_nat n * Z.of_nat B)%Z)
                   (Some (Z.of_nat n * Z.of_nat B + Z.of_nat B)%Z) <$> a)
          = Ok ((λ ch, spec_partition B ch n) <$> a)) as Hblk.
  { unfold pad_rows. rewrite decide_False by lia. f_equal.
    rewrite <- list_fmap_compose. apply list_fmap_ext. intros _ ch _. unfold compose.
    rewrite slice_range by lia. unfold spec_partition. rewrite Nat2Z.id.
    do 3 f_equal; lia. }
  erewrite run_bind by (apply run_lift, Hblk).
  erewrite run_bind by reflexivity. rewrite Ht.
  erewrite run_bind; [reflexivity|]. apply run_lift.
  rewrite assign_axis2_Ok.
  - f_equal. rewrite zip_with_fmap_l, zip_with_fmap_r, zip_with_diag.
    apply list_fmap_ext. intros _ ch _. unfold chopped_upto.
    rewrite insert_app_r_alt by (rewrite length_fmap, length_seq; lia).
    rewrite length_fmap, length_seq, Nat.sub_diag.
    replace (nf - n) with (S (nf - S n)) by lia. cbn [replicate insert list_insert].
    rewrite seq_S, fmap_app. cbn. by rewrite <- app_assoc.
  - apply Forall2_fmap. apply Forall2_same_length_lookup_2; [done|].
    intros i ch ch' Hch Hch'. assert (ch' = ch) as -> by congruence.
    exists (replicate (B + B) 0%Q). split.
    + unfold chopped_upto.
      rewrite lookup_app_r by (rewrite length_fmap, length_seq; lia).
      rewrite length_fmap, length_seq, Nat.sub_diag.
      apply lookup_replicate_2. lia.
    + rewrite length_replicate, spec_partition_length; [done|].
      rewrite (Forall_lookup_1 _ _ _ _ Ha Hch). nia.
Qed.

Lemma chop_loop_Ok (a : list (list Q)) (B nf : nat) (m n : nat) self :
  block_size self = Z.of_nat B →
  n + m = nf →
  Forall (λ ch, length ch = nf * B) a →
  h_new self = chopped_upto B nf n <$> a →
  for_ (seq n m) (chop_one a) self
  = (set_h_new (chopped_upto B nf nf <$> a) self, Ok tt).
Proof.
  revert n self. induction m as [|m IH]; intros n self HB Hnm Ha Ht.
  - cbn. rewrite Nat.add_0_r in Hnm. subst n. by rewrite set_h_new_id.
  - cbn [seq for_].
    erewrite run_bind by (eapply (chop_one_Ok a B nf n); [done|lia|done..]).
    rewrite IH; [reflexivity|done|lia|done|reflexivity].
Qed.

Lemma chopped_upto_all B nf ch : chopped_upto B nf nf ch = spec_partitions B nf ch.
Proof. unfold chopped_upto. by rewrite Nat.sub_diag, app_nil_r. Qed.

(** ** [build_filters]: padding, partitions, transforms *)

Lemma pad_arith (B L : nat) :
  0 < B →
  (Z.of_nat B - Z.of_nat L `mod` Z.of_nat B)%Z = Z.of_nat (B - L mod B) ∧
  L + (B - L mod B) = (L / B + 1) * B ∧
  0 < B - L mod B ≤ B.
Proof.
  intros HB. pose proof (Nat.mod_upper_bound L B ltac:(lia)) as Hlt.
  pose proof (Nat.div_mod_eq L B) as Hdm.
  rewrite <- Nat2Z.inj_mod.
  generalize dependent (L / B). generalize dependent (L mod B).
  intros r Hr q Hq. repeat split; lia.
Qed.

Lemma build_filters_Ok fft (a : list (list Q)) (B L C : nat) self :
  block_size self = Z.of_nat B → 0 < B → 0 < C → has_shape2 L C a →
  let t := spec_partitions B (L / B + 1)
             <$> ((λ ch, ch ++ replicate (B - L mod B) 0%Q) <$> a) in
  build_filters fft a self
  = (set_overlap (replicate C (replicate B 0%Q))
       (set_X (fmap (M := list) fft <$> zeros_like t)
          (set_H (fmap (M := list) fft <$> t)
             (set_h (Chopped t) (set_h_new t self)))),
     Ok tt).
Proof.
  intros HB HB0 HC [Hlen Ha] t.
  destruct (pad_arith B L HB0) as (Hpad & Hsum & Hpos).
  assert (shape0 a = L) as HL.
  { destruct a as [|ch a]; [cbn in Hlen; lia|]. by inversion Ha. }
  set (a' := (λ ch, ch ++ replicate (B - L mod B) 0%Q) <$> a).
  assert (Forall (λ ch, length ch = (L / B + 1) * B) a') as Ha'.
  { apply Forall_fmap. eapply Forall_impl; [exact Ha|]. intros ch Hch. unfold compose. cbv beta in Hch.
    rewrite length_app, length_replicate. lia. }
  assert (shape0 a' = (L / B + 1) * B) as HL'.
  { destruct a as [|ch a]; [cbn in Hlen; lia|]. by inversion Ha'. }
  assert (shape1 a' = C) as HC' by (unfold shape1, a'; by rewrite length_fmap).
  unfold build_filters.
  erewrite run_bind by reflexivity. rewrite HB.
  erewrite run_bind;
    [|apply run_lift; rewrite decide_False by lia; rewrite HL, Hpad; reflexivity].
  erewrite run_bind;
    [|apply run_lift; unfold pad_rows; rewrite decide_False by lia;
      rewrite Nat2Z.id; fold a'; reflexivity].
  erewrite run_bind by reflexivity.
  rewrite HL', HC'.
  assert ((Z.of_nat ((L / B + 1) * B) / Z.of_nat B)%Z = Z.of_nat (L / B + 1)) as Hnf.
  { rewrite Nat2Z.inj_mul. apply Z.div_mul. lia. }
  rewrite Hnf.
  erewrite run_bind;
    [|apply run_lift; unfold np_empty; rewrite decide_False by lia;
      rewrite !Nat2Z.id; reflexivity].
  erewrite run_bind by reflexivity.
  erewrite run_bind.
  2:{ rewrite Nat2Z.id.
      apply (chop_loop_Ok a' B (L / B + 1) (L / B + 1) 0); [done|lia|done|].
      cbn [h_new set_h_new]. rewrite <- HC'. unfold shape1.
      symmetry. apply const_fmap. intros ? ch ?. unfold chopped_upto. cbn.
      rewrite Nat.sub_0_r. do 2 f_equal. lia. }
  assert (chopped_upto B (L / B + 1) (L / B + 1) <$> a' = t) as ->.
  { apply list_fmap_ext. intros ? ch ?. apply chopped_upto_all. }
  unfold commit, mbind, M_bind, gets, modify. cbn.
  rewrite HB, Nat2Z.id.
  replace (length t) with C by (unfold t; by rewrite !length_fmap).
  reflexivity.
Qed.

Lemma spec_partitions_shape (B nf C : nat) (a : list (list Q)) :
  has_shape2 (nf * B) C a → has_shape3 (B + B) C nf (spec_partitions B nf <$> a).
Proof.
  intros [Hlen Ha]. split; [by rewrite length_fmap|].
  apply Forall_fmap. eapply Forall_impl; [exact Ha|].
  intros ch Hch. cbv beta in Hch. unfold compose, spec_partitions. split.
  - by rewrite length_fmap, length_seq.
  - apply Forall_fmap, Forall_forall. intros n Hn%elem_of_seq.
    unfold compose. apply spec_partition_length. nia.
Qed.

Lemma spec_partition_trailing_zeros (B q : nat) (ch : list Q) :
  length ch = q * B →
  spec_partition B (ch ++ replicate B 0%Q) q = replicate (B + B) 0%Q.
Proof.
  intros Hch. unfold spec_partition.
  rewrite <- Hch, drop_app_length, take_replicate, Nat.min_id.
  by rewrite replicate_add.
Qed.

(** C2: for a shaped impulse of [L] samples and a block size [B], the
    rebuild appends [pad = B - L mod B] zeros to every channel, the
    padded length [L + pad] is a multiple of [B], the impulse is cut into
    [(L + pad) / B = L / B + 1] partitions (each [B] samples followed
    by [B] zeros), and when [B] divides [L] the padding is a whole block
    and the last partition of every channel is zero throughout. *)
Theorem build_filters_partition_count fft (a : list (list Q)) (B L C : nat) self :
  block_size self = Z.of_nat B → 0 < B → 0 < C → has_shape2 L C a →
  let pad := B - L mod B in
  let nf := L / B + 1 in
  let padded := (λ ch, ch ++ replicate pad 0%Q) <$> a in
  ∃ self',
    build_filters fft a self = (self', Ok tt) ∧
    Z.of_nat pad = (block_size self - Z.of_nat L `mod` block_size self)%Z ∧
    has_shape2 (L + pad) C padded ∧
    (L + pad) mod B = 0 ∧
    nf = (L + pad) / B ∧
    self_h self' = Chopped (spec_partitions B nf <$> padded) ∧
    self_H self' = (fmap (M := list) fft <$> (spec_partitions B nf <$> padded)) ∧
    has_shape3 (B + B) C nf (spec_partitions B nf <$> padded) ∧
    (L mod B = 0 →
     pad = B ∧
     Forall (λ parts, last parts = Some (replicate (B + B) 0%Q))
       (spec_partitions B nf <$> padded)).
Proof.
  intros HB HB0 HC Hshape pad nf padded.
  destruct (pad_arith B L HB0) as (Hpad & Hsum & Hpos).
  assert (has_shape2 (L + pad) C padded) as Hpadded.
  { destruct Hshape as [Hlen Ha]. split; [unfold padded; by rewrite length_fmap|].
    apply Forall_fmap. eapply Forall_impl; [exact Ha|]. intros ch Hch.
    cbv beta in Hch. unfold compose.
    rewrite length_app, length_replicate. by rewrite Hch. }
  eexists. split; [by eapply build_filters_Ok|].
  split; [by rewrite HB|]. split; [done|].
  fold pad nf in Hsum. rewrite Hsum.
  split; [apply Nat.Div0.mod_mul|].
  split; [symmetry; apply Nat.div_mul; lia|].
  split; [reflexivity|]. split; [reflexivity|].
  split; [apply spec_partitions_shape; by rewrite <- Hsum|].
  intros Hmod. assert (pad = B) as Hp by (unfold pad; lia). split; [done|].
  apply Forall_fmap, Forall_fmap, Forall_forall. intros ch Hch.
  unfold compose, spec_partitions, nf. rewrite Hp.
  replace (L / B + 1) with (S (L / B)) by lia.
  rewrite seq_S, fmap_app, last_app. cbn. f_equal.
  apply spec_partition_trailing_zeros.
  destruct Hshape as [_ Ha]. rewrite Forall_forall in Ha. rewrite (Ha ch Hch).
  pose proof (Nat.div_mod_eq L B). lia.
Qed.

Lemma build_filters_partition_count_witness :
  ∃ self',
    block_size (new_object None 2 50) = Z.of_nat 2 ∧
    has_shape2 4 2 [[1; 0; 0; 0]; [1; 0; 0; 0]]%Q ∧
    build_filters dft [[1; 0; 0; 0]; [1; 0; 0; 0]]%Q (new_object None 2 50)
    = (self', Ok tt) ∧
    self_h self'
    = Chopped [[[1; 0; 0; 0]; [0; 0; 0; 0]; [0; 0; 0; 0]];
               [[1; 0; 0; 0]; [0; 0; 0; 0]; [0; 0; 0; 0]]]%Q.
Proof.
  assert (has_shape2 4 2 [[1; 0; 0; 0]; [1; 0; 0; 0]]%Q) as Hshape.
  { split; [reflexivity|]. repeat constructor. }
  destruct (build_filters_partition_count dft
              [[1; 0; 0; 0]; [1; 0; 0; 0]]%Q 2 4 2 (new_object None 2 50)
              eq_refl ltac:(lia) ltac:(lia) Hshape)
    as (self' & Hrun & _ & _ & _ & _ & Hh & _).
  exists self'. split; [reflexivity|]. split; [exact Hshape|].
  split; [exact Hrun|]. rewrite Hh. reflexivity.
Defined.

(** ** [fade_out]: the decay of the impulse *)

Lemma slice_index_in_range (len : nat) (i : nat) :
  i ≤ len → slice_index len (Z.of_nat i) = i.
Proof. intros Hi. unfold slice_index. rewrite decide_False by lia. lia. Qed.

Lemma zip_with_gains (g : nat → Q) (n : nat) (l : list Q) :
  length l = n →
  zip_with Qmult l (g <$> seq 0 n) = imap (λ i v, (v * g i)%Q) l.
Proof.
  intros Hl. apply list_eq. intros i.
  rewrite lookup_zip_with, list_lookup_imap, list_lookup_fmap.
  destruct (l !! i) as [v|] eqn:Hv; [|done]. cbn.
  apply lookup_lt_Some in Hv.
  by rewrite (lookup_seq_lt 0 n i) by lia.
Qed.

Lemma imul_rows_Ok (start stop L : nat) (a g : list (list Q)) :
  start ≤ stop ≤ L →
  Forall (λ ch, length ch = L) a →
  Forall2 (λ ch gc, length gc = stop - start) a g →
  imul_rows (Z.of_nat start) (Z.of_nat stop) a g
  = Ok (zip_with
          (λ ch gc, take start ch
                    ++ zip_with Qmult (take (stop - start) (drop start ch)) gc
                    ++ drop stop ch) a g).
Proof.
  intros Hss Ha Hg. unfold imul_rows.
  assert (∀ ch : list Q, length ch = L →
            slice (Some (Z.of_nat start)) (Some (Z.of_nat stop)) ch
            = take (stop - start) (drop start ch)) as Hslice.
  { intros ch Hch. rewrite slice_range by lia. by rewrite !Nat2Z.id. }
  rewrite iop2_same.
  - cbn. f_equal. induction Hg as [|ch gc a g Hgc Hg IH]; [done|].
    apply Forall_cons in Ha as [Hch Ha]. cbn. f_equal; [|by apply IH].
    rewrite Hslice by done. rewrite slice_index_in_range by lia.
    do 3 f_equal. rewrite length_zip_with, length_take, length_drop. lia.
  - apply Forall2_fmap_l. induction Hg as [|ch gc a g Hgc Hg IH]; [constructor|].
    apply Forall_cons in Ha as [Hch Ha]. constructor; [|by apply IH].
    unfold compose. rewrite Hslice by done. rewrite length_take, length_drop. lia.
Qed.

Lemma spec_shape_length gain (fstart flen : nat) (ch : list Q) :
  fstart + flen ≤ length ch → length (spec_shape gain fstart flen ch) = fstart + flen.
Proof.
  intros Hlen. unfold spec_shape.
  rewrite length_app, length_imap, !length_take, length_drop. lia.
Qed.

Lemma fade_out_Ok power (a : list (list Q)) (L : nat) self :
  (0 <= decay (parameters self) <= 1)%Q → (0 ≤ sample_rate self)%Z →
  has_shape2 L 2 a →
  let fstart := fstart_of (decay (parameters self)) a in
  let fstop := fstop_of (decay (parameters self)) (sample_rate self) a in
  let flen := (fstop - fstart)%Z in
  let a' := spec_shape (fade_gain power flen) (Z.to_nat fstart) (Z.to_nat flen) <$> a in
  fade_out power a self
  = if decide (fstart < fstop)%Z then (set_h (Raw a') self, Ok a') else (self, Ok a).
Proof.
  intros Hd Hsr [Hlen Ha] fstart fstop flen a'.
  destruct (fade_window_bounds _ _ a Hd Hsr) as [Hwin Hstop].
  fold fstart fstop in Hwin, Hstop.
  assert (shape0 a = L) as HL.
  { destruct a as [|ch a]; [discriminate|]. by inversion Ha. }
  rewrite HL in Hstop.
  unfold fade_out. erewrite run_bind by reflexivity.
  erewrite run_bind by reflexivity. fold fstart fstop flen.
  destruct (decide (fstart < fstop)%Z) as [Hlt|Hge].
  - rewrite decide_True by (unfold flen; lia).
    assert (imul_rows fstart fstop a [fade_gains power flen; fade_gains power flen]
            = Ok ((λ ch, spec_shape (fade_gain power flen) (Z.to_nat fstart) (Z.to_nat flen) ch
                         ++ drop (Z.to_nat fstop) ch) <$> a)) as Hmul.
    { rewrite <- (Z2Nat.id fstart), <- (Z2Nat.id fstop) at 1 by lia.
      rewrite (imul_rows_Ok _ _ L); [|lia|done|].
      - f_equal. destruct a as [|c1 [|c2 [|??]]]; try discriminate.
        unfold spec_shape, fade_gains.
        apply Forall_cons in Ha as [H1 Ha]. apply Forall_cons in Ha as [H2 _].
        replace (Z.to_nat fstop - Z.to_nat fstart) with (Z.to_nat flen)
          by (unfold flen; lia).
        cbn [zip_with fmap list_fmap].
        rewrite !zip_with_gains by (rewrite length_take, length_drop; unfold flen; lia).
        by rewrite <- !app_assoc.
      - destruct a as [|c1 [|c2 [|??]]]; try discriminate.
        repeat constructor; unfold fade_gains;
          rewrite length_fmap, length_seq; unfold flen; lia. }
    erewrite run_bind by (apply run_lift, Hmul).
    unfold mbind, M_bind, modify, mret, M_ret. cbn.
    assert (slice None (Some fstop)
              <$> ((λ ch, spec_shape (fade_gain power flen) (Z.to_nat fstart)
                            (Z.to_nat flen) ch ++ drop (Z.to_nat fstop) ch) <$> a)
            = a') as ->; [|done].
    rewrite <- list_fmap_compose. apply Forall_fmap_ext_1.
    eapply Forall_impl; [exact Ha|]. intros ch Hch. cbv beta in Hch. unfold compose.
    rewrite slice_to by lia.
    rewrite take_app_length'; [done|].
    rewrite spec_shape_length; unfold flen; lia.
  - rewrite decide_False by (unfold flen; lia). reflexivity.
Qed.

(** C7, as the code has it: [update] takes [decay] as it is stored,
    nothing clamps it.  When the stored [decay] is within [0, 1] and the
    sample rate is not negative, the fade window lies within the impulse,
    [0 <= fstart <= fstop <= L], and the fade out of a stereo impulse
    returns. *)
Theorem fade_window_in_range power (a : list (list Q)) (L : nat) self :
  (0 <= decay (parameters self) <= 1)%Q → (0 ≤ sample_rate self)%Z →
  has_shape2 L 2 a →
  let fstart := fstart_of (decay (parameters self)) a in
  let fstop := fstop_of (decay (parameters self)) (sample_rate self) a in
  (0 ≤ fstart ≤ fstop)%Z ∧ (fstop ≤ Z.of_nat L)%Z ∧
  ∃ a', (fade_out power a self).2 = Ok a'.
Proof.
  intros Hd Hsr Hshape fstart fstop.
  destruct (fade_window_bounds _ _ a Hd Hsr) as [Hwin Hstop].
  assert (shape0 a = L) as HL.
  { destruct Hshape as [Hlen Ha]. destruct a as [|ch a]; [discriminate|].
    by inversion Ha. }
  rewrite HL in Hstop. split; [exact Hwin|]. split; [exact Hstop|].
  rewrite (fade_out_Ok power a L self Hd Hsr Hshape).
  destruct (decide _); eexists; reflexivity.
Qed.

Lemma fade_window_in_range_witness :
  let self := new_object (Some (example_parameters 0.5 false)) 2 50 in
  (0 <= decay (parameters self) <= 1)%Q ∧ (0 ≤ sample_rate self)%Z ∧
  has_shape2 3 2 example_ir ∧
  (0 ≤ fstart_of 0.5 example_ir ≤ fstop_of 0.5 50 example_ir)%Z ∧
  (fstop_of 0.5 50 example_ir ≤ 3)%Z ∧
  ∃ a', (fade_out pow_int example_ir self).2 = Ok a'.
Proof.
  intros self.
  assert (0 <= decay (parameters self) <= 1)%Q as Hd by (split; discriminate).
  assert (0 ≤ sample_rate self)%Z as Hsr by (cbn; lia).
  assert (has_shape2 3 2 example_ir) as Hshape.
  { split; [reflexivity|]. repeat constructor. }
  split; [exact Hd|]. split; [exact Hsr|]. split; [exact Hshape|].
  exact (fade_window_in_range pow_int example_ir 3 self Hd Hsr Hshape).
Defined.




(** ** [update]: the rebuild *)

Lemma shaped_shape power (d : Q) (sr : Z) (ir : list (list Q)) (L : nat) :
  (0 <= d <= 1)%Q → (0 ≤ sr)%Z → has_shape2 L 2 ir →
  ∃ L', L' ≤ L ∧ has_shape2 L' 2 (shaped power d sr ir).
Proof.
  intros Hd Hsr [Hlen Ha]. unfold shaped.
  destruct (fade_window_bounds d sr ir Hd Hsr) as [Hwin Hstop].
  assert (shape0 ir = L) as HL.
  { destruct ir as [|ch ir]; [discriminate|]. by inversion Ha. }
  rewrite HL in Hstop.
  destruct (decide _) as [Hlt|Hge]; [|exists L; by repeat split].
  exists (Z.to_nat (fstop_of d sr ir)). split; [lia|].
  split; [by rewrite length_fmap|]. apply Forall_fmap.
  eapply Forall_impl; [exact Ha|]. intros ch Hch. cbv beta in Hch.
  unfold compose. rewrite spec_shape_length; lia.
Qed.

Lemma update_Ok fft power pn (ir : list (list Q)) (L B : nat) self :
  impulses self !! type_value (parameters self) = Some ir →
  has_shape2 L 2 ir →
  (0 <= decay (parameters self) <= 1)%Q → (0 ≤ sample_rate self)%Z →
  block_size self = Z.of_nat B → 0 < B →
  ∃ L', has_shape2 L' 2 (shaped power (decay (parameters self)) (sample_rate self) ir) ∧
    update fft power pn self
    = (rebuilt fft B
         (spec_partitions B (L' / B + 1)
            <$> ((λ ch, ch ++ replicate (B - L' mod B) 0%Q)
                   <$> shaped power (decay (parameters self)) (sample_rate self) ir))
         self,
       Ok tt).
Proof.
  intros Hir Hshape Hd Hsr HB HB0.
  destruct (shaped_shape power _ _ ir L Hd Hsr Hshape) as (L' & _ & Hshaped).
  exists L'. split; [done|].
  unfold update. erewrite run_bind by reflexivity.
  erewrite run_bind by reflexivity.
  erewrite run_bind by (apply run_lift; unfold getitem; by rewrite Hir).
  erewrite run_bind by reflexivity.
  pose proof (fade_out_Ok power ir L (set_h (Raw ir) self) Hd Hsr Hshape) as Hfade.
  cbv zeta in Hfade. cbn [parameters sample_rate set_h] in Hfade.
  unfold shaped in *.
  destruct (decide (fstart_of _ ir < fstop_of _ _ ir)%Z).
  - erewrite run_bind by exact Hfade.
    erewrite (build_filters_Ok fft _ B L' 2); [|done|done|lia|done].
    unfold rebuilt. rewrite !length_fmap. destruct Hshape as [-> _]. reflexivity.
  - erewrite run_bind by exact Hfade.
    erewrite (build_filters_Ok fft _ B L' 2); [|done|done|lia|done].
    unfold rebuilt. rewrite !length_fmap. destruct Hshape as [-> _]. reflexivity.
Qed.

Lemma zeros_like_shape (n c k : nat) (t : list (list (list Q))) :
  has_shape3 n c k t → zeros_like t = replicate c (replicate k (replicate n 0%Q)).
Proof.
  intros [<- Ht]. unfold zeros_like.
  apply const_fmap. intros i ch Hch.
  destruct (Forall_lookup_1 _ _ _ _ Ht Hch) as [<- Hparts].
  apply const_fmap. intros j part Hpart.
  rewrite <- (Forall_lookup_1 _ _ _ _ Hparts Hpart).
  apply const_fmap. done.
Qed.

Lemma hoare_update_committed fft power pn :
  hoare (λ _, True) (update fft power pn) (λ _, committed fft) (λ _, True).
Proof.
  unfold update, build_filters, fade_out, chop_one.
  do 12 (eapply hoare_bind; [repeat inv_step; done|intros ?]).
  intros self _. by cbn.
Qed.

(** C5: whenever a call of [update] returns, the history ring is the
    transform of an all-zero array of the shape of the partitioned
    impulse, whose transform is the new filter bank, and the overlap buffer
    is all zero, one block per channel; nothing of the ring or the overlap
    the object held before remains.  On a stereo impulse, with a decay
    within [0, 1], the call does return: every entry of the ring is the
    transform of a block of [2 B] zeros, and the ring has as many entries
    per channel as the new filter bank has partitions. *)
Theorem update_resets_history fft power pn self :
  (∀ self',
     update fft power pn self = (self', Ok tt) → committed fft self') ∧
  (∀ (ir : list (list Q)) (L B : nat),
     impulses self !! type_value (parameters self) = Some ir →
     has_shape2 L 2 ir →
     (0 <= decay (parameters self) <= 1)%Q → (0 ≤ sample_rate self)%Z →
     block_size self = Z.of_nat B → 0 < B →
     ∃ self' nf,
       update fft power pn self = (self', Ok tt) ∧
       0 < nf ∧
       length (self_H self') = 2 ∧
       Forall (λ ch, length ch = nf) (self_H self') ∧
       self_X self' = replicate 2 (replicate nf (fft (replicate (B + B) 0%Q))) ∧
       overlap self' = replicate 2 (replicate B 0%Q)).
Proof.
  split.
  { intros self' Hrun.
    pose proof (hoare_update_committed fft power pn self I) as Hh.
    by rewrite Hrun in Hh. }
  intros ir L B Hir Hshape Hd Hsr HB HB0.
  destruct (update_Ok fft power pn ir L B self Hir Hshape Hd Hsr HB HB0)
    as (L' & Hshaped & Hrun).
  destruct (pad_arith B L' HB0) as (_ & Hsum & _).
  set (a' := (λ ch, ch ++ replicate (B - L' mod B) 0%Q)
               <$> shaped power (decay (parameters self)) (sample_rate self) ir) in *.
  assert (has_shape3 (B + B) 2 (L' / B + 1) (spec_partitions B (L' / B + 1) <$> a'))
    as Ht.
  { apply spec_partitions_shape. destruct Hshaped as [Hlen Ha].
    split; [unfold a'; by rewrite length_fmap|].
    apply Forall_fmap. eapply Forall_impl; [exact Ha|]. intros ch Hch.
    cbv beta in Hch. unfold compose. rewrite length_app, length_replicate. lia. }
  eexists _, (L' / B + 1). split; [exact Hrun|].
  split; [lia|]. unfold rebuilt. cbn.
  split; [unfold a'; rewrite !length_fmap; by destruct Hshaped|].
  split.
  - apply Forall_fmap. destruct Ht as [_ Ht].
    eapply Forall_impl; [exact Ht|]. intros ch [Hch _].
    unfold compose. by rewrite length_fmap.
  - split.
    + rewrite (zeros_like_shape _ _ _ _ Ht). cbn.
      f_equal; [|f_equal]; by rewrite fmap_replicate.
    + by destruct Ht as [-> _].
Qed.

(** ** The shape of the history ring and of the filter bank *)

Lemma has_shape3_fmap {A B} (f : list A → list B) (n c k : nat) t :
  (∀ v, length (f v) = length v) →
  has_shape3 n c k t → has_shape3 n c k (fmap (M := list) f <$> t).
Proof.
  intros Hf [Hc Ht]. split; [by rewrite length_fmap|].
  apply Forall_fmap. eapply Forall_impl; [exact Ht|].
  intros ch [Hk Hch]. unfold compose. split; [by rewrite length_fmap|].
  apply Forall_fmap. eapply Forall_impl; [exact Hch|].
  intros v Hv. cbv beta in Hv. unfold compose. by rewrite Hf.
Qed.

Lemma has_shape3_replicate {A} (n c k : nat) (x : A) :
  has_shape3 n c k (replicate c (replicate k (replicate n x))).
Proof.
  split; [apply length_replicate|]. apply Forall_replicate.
  split; [apply length_replicate|]. apply Forall_replicate, length_replicate.
Qed.

Lemma np_empty_shape (r c k : Z) t :
  np_empty r c k = Ok t → rect3 t.
Proof.
  unfold np_empty. destruct (decide _); [discriminate|]. intros [= <-].
  eexists _, _, _. apply has_shape3_replicate.
Qed.

Lemma roll1_shape {A} (n k : nat) (parts : list (list A)) :
  has_shape2 n k parts → has_shape2 n k (roll1 parts).
Proof.
  intros [Hk Hparts]. unfold roll1. split.
  - rewrite length_app, length_drop, length_take. lia.
  - apply Forall_app. split; [by apply Forall_drop|by apply Forall_take].
Qed.

Lemma roll1_shape3 {A} (n c k : nat) (t : list (list (list A))) :
  has_shape3 n c k t → has_shape3 n c k (roll1 <$> t).
Proof.
  intros [Hc Ht]. split; [by rewrite length_fmap|].
  apply Forall_fmap. eapply Forall_impl; [exact Ht|].
  intros ch Hch. by apply roll1_shape.
Qed.

Section shape_invariant.
Variable fft : list Q → list complex.
Variable ifft : list complex → list complex.
Variable power : Q → Q → Q.
Variable disk : gmap string wav.
Hypothesis fft_length : ∀ v, length (fft v) = length v.

Lemma commit_shape self :
  rect3 (h_new self) →
  (commit fft self).2 = Ok tt ∧ XH_same_shape (commit fft self).1.
Proof using fft_length.
  intros (n & c & k & Ht). split; [reflexivity|].
  exists n, c, k. cbn. split.
  - apply has_shape3_fmap; [done|].
    rewrite (zeros_like_shape _ _ _ _ Ht). apply has_shape3_replicate.
  - by apply has_shape3_fmap.
Qed.

Lemma hoare_commit :
  hoare (λ self, rect3 (h_new self)) (commit fft) (λ _, XH_same_shape) XH_same_shape.
Proof using fft_length.
  intros self Ht. destruct (commit_shape self Ht) as [Hr Hs].
  destruct (commit fft self) as [self' [[]|e]]; [exact Hs|discriminate].
Qed.

Lemma hoare_chop_one (a : list (list Q)) (n : nat) :
  hoare (λ self, XH_same_shape self ∧ rect3 (h_new self)) (chop_one a n)
    (λ _ self, XH_same_shape self ∧ rect3 (h_new self)) XH_same_shape.
Proof.
  unfold chop_one.
  eapply hoare_bind; [apply hoare_gets_inv|intros B].
  eapply hoare_bind; [apply hoare_lift_inv; by intros ? [? _]|intros blk].
  eapply hoare_bind; [apply hoare_gets|intros t].
  eapply hoare_bind; [apply hoare_lift; by intros ? (_ & ? & _)|intros t'].
  apply hoare_modify.
  intros self (Hassign & -> & Hinv & (r & c & k & Ht)). split; [exact Hinv|].
  exists r, c, k. cbn. by eapply assign_axis2_shape.
Qed.

Lemma hoare_build_filters (a : list (list Q)) :
  hoare XH_same_shape (build_filters fft a) (λ _, XH_same_shape) XH_same_shape.
Proof using fft_length.
  unfold build_filters.
  eapply hoare_bind; [apply hoare_gets_inv|intros B].
  eapply hoare_bind; [by apply hoare_lift_inv|intros pad].
  eapply hoare_bind; [by apply hoare_lift_inv|intros a'].
  eapply hoare_bind; [by apply hoare_modify_inv|intros ?].
  eapply hoare_bind; [by apply hoare_lift|intros t].
  eapply hoare_bind.
  { apply (hoare_modify _ (λ self, XH_same_shape self ∧ rect3 (h_new self))).
    intros self [Ht Hinv]. split; [exact Hinv|]. cbn. by eapply np_empty_shape. }
  intros ?.
  eapply hoare_bind; [apply hoare_for, hoare_chop_one|intros ?].
  eapply hoare_conseq; [apply hoare_commit|by intros ? [_ ?]|done|done].
Qed.

Lemma hoare_fade_out (a : list (list Q)) :
  hoare XH_same_shape (fade_out power a) (λ _, XH_same_shape) XH_same_shape.
Proof.
  unfold fade_out. repeat inv_step; done.
Qed.

Lemma hoare_update pn :
  hoare XH_same_shape (update fft power pn) (λ _, XH_same_shape) XH_same_shape.
Proof using fft_length.
  unfold update.
  eapply hoare_bind; [apply hoare_gets_inv|intros p].
  eapply hoare_bind; [apply hoare_gets_inv|intros cache].
  eapply hoare_bind; [by apply hoare_lift_inv|intros ir].
  eapply hoare_bind; [by apply hoare_modify_inv|intros ?].
  eapply hoare_bind; [apply hoare_fade_out|intros shaped_ir].
  apply hoare_build_filters.
Qed.

Lemma hoare_load :
  hoare XH_same_shape (load disk) (λ _, XH_same_shape) XH_same_shape.
Proof.
  unfold load, load_one. repeat inv_step; done.
Qed.

Lemma hoare_process x :
  hoare XH_same_shape (process fft ifft x) (λ _, XH_same_shape) XH_same_shape.
Proof.
  unfold process.
  eapply hoare_bind; [apply hoare_gets_inv|intros p].
  destruct (bypass p); [apply hoare_ret_inv|].
  eapply hoare_bind; [apply hoare_gets_inv|intros B].
  eapply hoare_bind; [by apply hoare_lift_inv|intros xp].
  eapply hoare_bind.
  { apply (hoare_modify _ XH_same_shape). intros self (n & c & k & HX & HH).
    exists n, c, k. cbn. split; [by apply roll1_shape3|done]. }
  intros ?.
  eapply hoare_bind; [apply hoare_gets|intros X].
  eapply hoare_bind; [apply hoare_lift; by intros ? [_ ?]|intros X'].
  eapply hoare_bind.
  { apply (hoare_modify _ XH_same_shape).
    intros self (Hassign & -> & n & c & k & HX & HH).
    exists n, c, k. cbn. split; [|done].
    eapply assign_axis2_shape; [exact HX|exact Hassign]. }
  intros ?.
  repeat inv_step; done.
Qed.
End shape_invariant.

Lemma same_shape_Forall2 {A B} (n c k : nat)
    (t : list (list (list A))) (u : list (list (list B))) :
  has_shape3 n c k t → has_shape3 n c k u →
  Forall2 (Forall2 (λ x y, length x = length y)) t u.
Proof.
  intros [Hc Ht] [Hc' Hu].
  apply Forall2_same_length_lookup_2; [congruence|].
  intros i ch ch' Hch Hch'.
  destruct (Forall_lookup_1 _ _ _ _ Ht Hch) as [Hk Hparts].
  destruct (Forall_lookup_1 _ _ _ _ Hu Hch') as [Hk' Hparts'].
  apply Forall2_same_length_lookup_2; [congruence|].
  intros j p p' Hp Hp'.
  rewrite (Forall_lookup_1 _ _ _ _ Hparts Hp).
  by rewrite (Forall_lookup_1 _ _ _ _ Hparts' Hp').
Qed.

Lemma dft_length (v : list Q) : length (dft v) = length v.
Proof. unfold dft. by rewrite length_fmap, length_seq. Qed.

Lemma idft_length (v : list complex) : length (idft v) = length v.
Proof. unfold idft. by rewrite length_fmap, length_seq. Qed.

(** C4: the history ring [X] and the filter bank [H] are arrays of one
    shape, with the same number of partitions, once the constructor has
    returned and after every call of [update] and of [process], whether
    the call returns or raises; the product [X * H] of the accumulation
    step is then taken entry by entry, without broadcasting and without
    an error. *)
Theorem history_matches_filter_bank fft ifft power disk :
  (∀ v, length (fft v) = length v) →
  (∀ params bs sr self,
     init fft power disk params bs sr = Ok self → XH_same_shape self) ∧
  (∀ pn self,
     XH_same_shape self → XH_same_shape (update fft power pn self).1) ∧
  (∀ x self,
     XH_same_shape self → XH_same_shape (process fft ifft x self).1) ∧
  (∀ self,
     XH_same_shape self →
     op3 cmul (self_X self) (self_H self)
     = Ok (zip_with (zip_with (zip_with cmul)) (self_X self) (self_H self))).
Proof.
  intros Hfft. repeat split.
  - intros params bs sr self. unfold init.
    assert (hoare XH_same_shape (load disk ;; update fft power None)
              (λ _, XH_same_shape) XH_same_shape) as Hh.
    { eapply hoare_bind; [apply hoare_load|intros ?]. by apply hoare_update. }
    assert (XH_same_shape (new_object params bs sr)) as H0.
    { exists 0, 0, 0. cbn. by split. }
    specialize (Hh _ H0).
    destruct ((load disk ;; update fft power None) (new_object params bs sr))
      as [self' [[]|e]]; [|discriminate].
    by intros [= <-].
  - intros pn self Hinv. pose proof (hoare_update fft power Hfft pn self Hinv) as Hh.
    by destruct (update fft power pn self) as [self' [a|e]].
  - intros x self Hinv. pose proof (hoare_process fft ifft x self Hinv) as Hh.
    by destruct (process fft ifft x self) as [self' [a|e]].
  - intros self (n & c & k & HX & HH). apply op3_same.
    by eapply same_shape_Forall2.
Qed.

Lemma history_matches_filter_bank_witness :
  (∀ v, length (dft v) = length v) ∧
  XH_same_shape (example_reverb 1 false) ∧
  XH_same_shape (update dft pow_int None (example_reverb 1 false)).1 ∧
  XH_same_shape (process dft idft (Arr1 [3; 5]%Q) (example_reverb 1 false)).1.
Proof.
  destruct (history_matches_filter_bank dft idft pow_int example_disk dft_length)
    as (Hinit & Hupdate & Hprocess & _).
  assert (XH_same_shape (example_reverb 1 false)) as H0.
  { apply (Hinit (Some (example_parameters 1 false)) 2%Z 50%Z).
    vm_compute. reflexivity. }
  split; [exact dft_length|]. split; [exact H0|].
  split; [by apply Hupdate|by apply Hprocess].
Defined.


(** ** [process]: one block through the engine *)

Lemma insert_roll1 (v : list complex) (l : list (list complex)) :
  0 < length l → <[0 := v]> (roll1 l) = spec_ring v l.
Proof.
  intros Hl. unfold roll1, spec_ring.
  destruct (drop (length l - 1) l) as [|x tl] eqn:Hdrop.
  - apply (f_equal length) in Hdrop. rewrite length_drop in Hdrop. cbn in Hdrop. lia.
  - apply (f_equal length) in Hdrop. rewrite length_drop in Hdrop. cbn in Hdrop.
    destruct tl; [reflexivity|cbn in Hdrop; lia].
Qed.

Lemma sum_rows (rows : nat) (parts : list (list complex)) :
  Forall (λ p, length p = rows) parts →
  foldr (zip_with cadd) (replicate rows c0) parts
  = (λ r, foldr cadd c0 ((λ p, p !!! r) <$> parts)) <$> seq 0 rows.
Proof.
  induction 1 as [|p parts Hp _ IH]; cbn [foldr fmap list_fmap].
  - symmetry. etrans; [apply (const_fmap _ _ c0); by intros|].
    by rewrite length_seq.
  - rewrite IH. apply list_eq. intros r.
    rewrite lookup_zip_with, !list_lookup_fmap.
    destruct (decide (r < rows)) as [Hr|Hr].
    + rewrite (lookup_seq_lt 0 rows r) by done. cbn.
      rewrite (list_lookup_lookup_total_lt p r) by lia. reflexivity.
    + rewrite (lookup_seq_ge 0 rows r) by lia. cbn.
      rewrite (lookup_ge_None_2 p r) by lia. reflexivity.
Qed.

Lemma sum_partitions_spec (rows nf : nat) (ring bank : list (list complex)) :
  0 < nf →
  has_shape2 rows nf ring → has_shape2 rows nf bank →
  sum_partitions (zip_with (zip_with cmul) ring bank) = spec_Y rows ring bank.
Proof.
  intros Hnf [Hlr Hring] [Hlb Hbank]. unfold sum_partitions, spec_Y.
  assert (Forall (λ p, length p = rows) (zip_with (zip_with cmul) ring bank)) as Hprod.
  { apply Forall_lookup_2. intros k p Hp.
    apply lookup_zip_with_Some in Hp as (pr & pb & -> & Hpr & Hpb).
    rewrite length_zip_with.
    rewrite (Forall_lookup_1 _ _ _ _ Hring Hpr), (Forall_lookup_1 _ _ _ _ Hbank Hpb).
    lia. }
  assert (length (hd [] (zip_with (zip_with cmul) ring bank)) = rows) as ->.
  { destruct ring as [|pr ring]; [cbn in Hlr; lia|].
    destruct bank as [|pb bank]; [cbn in Hlb; lia|].
    cbn. by inversion Hprod. }
  rewrite sum_rows by done.
  apply list_fmap_ext. intros i r [-> Hr]%lookup_seq. cbn [Nat.add]. f_equal.
  apply list_eq. intros k. rewrite !list_lookup_fmap, lookup_zip_with.
  destruct (decide (k < nf)) as [Hk|Hk].
  - rewrite (lookup_seq_lt 0 (length bank) k) by lia. cbn.
    destruct (lookup_lt_is_Some_2 ring k ltac:(lia)) as [pr Hpr].
    destruct (lookup_lt_is_Some_2 bank k ltac:(lia)) as [pb Hpb].
    rewrite Hpr, Hpb. cbn.
    rewrite (list_lookup_total_correct ring k pr Hpr).
    rewrite (list_lookup_total_correct bank k pb Hpb).
    pose proof (Forall_lookup_1 _ _ _ _ Hring Hpr) as Hlpr.
    pose proof (Forall_lookup_1 _ _ _ _ Hbank Hpb) as Hlpb.
    cbv beta in Hlpr, Hlpb.
    destruct (lookup_lt_is_Some_2 pr i ltac:(lia)) as [vr Hvr].
    destruct (lookup_lt_is_Some_2 pb i ltac:(lia)) as [vb Hvb].
    rewrite (list_lookup_total_correct pr i vr Hvr).
    rewrite (list_lookup_total_correct pb i vb Hvb).
    f_equal. apply list_lookup_total_correct.
    by rewrite lookup_zip_with, Hvr, Hvb.
  - rewrite (lookup_seq_ge 0 (length bank) k) by lia.
    rewrite (lookup_ge_None_2 ring k) by lia. reflexivity.
Qed.

Lemma spec_ring_shape (rows nf : nat) (v : list complex) (parts : list (list complex)) :
  0 < nf → length v = rows → has_shape2 rows nf parts →
  has_shape2 rows nf (spec_ring v parts).
Proof.
  intros Hnf Hv [Hlen Hparts]. unfold spec_ring. split.
  - cbn. rewrite length_take. lia.
  - constructor; [done|]. by apply Forall_take.
Qed.

Lemma spec_Y_length rows ring bank : length (spec_Y rows ring bank) = rows.
Proof. unfold spec_Y. by rewrite length_fmap, length_seq. Qed.

(** C1: a call of [process] that is not bypassed, on a block of [B]
    samples, returns [wet * wetMix + dry * dryMix], where [dry] is the
    block after the copy of a mono block to both channels and before the
    padding, [wet] is the first [B] samples of [y] plus the overlap
    buffer, [y] is the real part of the inverse transform of [Y], and bin
    [r] of [Y] is the sum over the partitions [k] of
    [ring[k][r] * H[k][r]], per channel, for the ring that holds the
    transform of the padded block in front of the previous entries but
    the oldest.  The call leaves that ring in [X] and the second [B]
    samples of [y] in the overlap buffer. *)
Theorem process_block fft ifft (x : ndarray) (B C nf : nat) self :
  (∀ v, length (fft v) = length v) →
  (∀ v, length (ifft v) = length v) →
  bypass (parameters self) = false →
  engine_ready B C nf self →
  has_shape2 B C (to_stereo x) →
  let dry := to_stereo x in
  let ring :=
    zip_with (λ parts xc, spec_ring (fft (xc ++ replicate B 0%Q)) parts)
      (self_X self) dry in
  let Y := zip_with (spec_Y (B + B)) ring (self_H self) in
  let y := (λ Yc, real <$> ifft Yc) <$> Y in
  let wet := zip_with (spec_wet B) y (overlap self) in
  process fft ifft x self
  = (set_overlap ((λ yc, take B (drop B yc)) <$> y) (set_X ring self),
     Ok (Arr2 (zip_with
                 (spec_out (wet_mix (parameters self)) (dry_mix (parameters self)))
                 wet dry))).
Proof.
  intros Hfft Hifft Hbypass (HB & Hnf & HX & HH & Hov) Hx dry ring Y y wet.
  change (has_shape2 B C dry) in Hx.
  pose proof HX as [HXc HXs]. pose proof HH as [HHc HHs].
  pose proof Hov as [Hovc Hovs]. pose proof Hx as [Hxc Hxs].
  assert (has_shape3 (B + B) C nf ring) as Hring.
  { split; [unfold ring; rewrite length_zip_with; lia|].
    apply Forall_lookup_2. intros i r Hr.
    apply lookup_zip_with_Some in Hr as (parts & xc & -> & Hparts & Hxi).
    apply spec_ring_shape; [done| |exact (Forall_lookup_1 _ _ _ _ HXs Hparts)].
    rewrite Hfft, length_app, length_replicate.
    by rewrite (Forall_lookup_1 _ _ _ _ Hxs Hxi). }
  assert (has_shape2 (B + B) C y) as Hy.
  { destruct Hring as [Hrc _]. split.
    - unfold y, Y. rewrite length_fmap, length_zip_with. lia.
    - apply Forall_fmap, Forall_forall. intros Yc HYc. unfold compose.
      rewrite length_fmap, Hifft.
      apply list_elem_of_lookup in HYc as [i HYc].
      apply lookup_zip_with_Some in HYc as (? & ? & -> & _ & _).
      apply spec_Y_length. }
  unfold process.
  erewrite run_bind by reflexivity. rewrite Hbypass. fold dry.
  erewrite run_bind by reflexivity. rewrite HB.
  assert (pad_rows 0%Q (Z.of_nat B) dry = Ok ((λ ch, ch ++ replicate B 0%Q) <$> dry))
    as Hpad.
  { unfold pad_rows. rewrite decide_False by lia. by rewrite Nat2Z.id. }
  erewrite run_bind by (apply run_lift, Hpad).
  erewrite run_bind by reflexivity.
  erewrite run_bind by reflexivity. cbn [self_X set_X].
  assert (assign_axis2 0 (fft <$> ((λ ch, ch ++ replicate B 0%Q) <$> dry))
            (roll1 <$> self_X self) = Ok ring) as Hassign.
  { rewrite assign_axis2_Ok.
    - f_equal. rewrite <- list_fmap_compose, zip_with_fmap_l, zip_with_fmap_r.
      unfold ring. apply list_eq. intros i. rewrite !lookup_zip_with.
      destruct (self_X self !! i) as [parts|] eqn:Hparts; [|done]. cbn.
      destruct (dry !! i) as [xc|] eqn:Hxi; [|done]. cbn. f_equal.
      apply insert_roll1.
      destruct (Forall_lookup_1 _ _ _ _ HXs Hparts) as [Hk _]. lia.
    - rewrite <- list_fmap_compose.
      apply Forall2_fmap, Forall2_same_length_lookup_2; [congruence|].
      intros i parts xc Hparts Hxi. unfold compose.
      destruct (Forall_lookup_1 _ _ _ _ HXs Hparts) as [Hk Hp].
      destruct (roll1_shape _ _ parts (conj Hk Hp)) as [Hrk Hrp].
      destruct (lookup_lt_is_Some_2 (roll1 parts) 0 ltac:(lia)) as [old Hold].
      exists old. split; [done|].
      rewrite (Forall_lookup_1 _ _ _ _ Hrp Hold).
      rewrite Hfft, length_app, length_replicate.
      by rewrite (Forall_lookup_1 _ _ _ _ Hxs Hxi). }
  erewrite run_bind by (apply run_lift, Hassign).
  erewrite run_bind by reflexivity.
  erewrite run_bind by reflexivity. cbn [self_H set_X].
  erewrite run_bind
    by (apply run_lift, op3_same; by eapply same_shape_Forall2).
  assert (sum_axis2 (zip_with (zip_with (zip_with cmul)) ring (self_H self)) = Y) as ->.
  { unfold sum_axis2, Y. apply list_eq. intros i.
    rewrite list_lookup_fmap, !lookup_zip_with.
    destruct (ring !! i) as [r|] eqn:Hr; [|done]. cbn.
    destruct (self_H self !! i) as [bank|] eqn:Hbank; [|done]. cbn. f_equal.
    destruct Hring as [_ Hrs].
    eapply sum_partitions_spec; [exact Hnf|..].
    - exact (Forall_lookup_1 _ _ _ _ Hrs Hr).
    - exact (Forall_lookup_1 _ _ _ _ HHs Hbank). }
  fold y.
  erewrite run_bind by reflexivity. cbn [overlap set_X].
  assert (op2 Qplus (slice None (Some (Z.of_nat B)) <$> y) (overlap self) = Ok wet)
    as Hwet.
  { rewrite op2_same.
    - f_equal. unfold wet, spec_wet. rewrite zip_with_fmap_l.
      apply list_eq. intros i. rewrite !lookup_zip_with.
      destruct (y !! i) as [yc|]; [|done]. cbn.
      destruct (overlap self !! i) as [oc|]; [|done]. cbn.
      rewrite slice_to by lia. by rewrite Nat2Z.id.
    - apply Forall2_fmap_l, Forall2_same_length_lookup_2.
      { destruct Hy as [-> _]. done. }
      intros i yc oc Hyc Hoc. unfold compose.
      rewrite slice_to by lia. rewrite Nat2Z.id, length_take.
      destruct Hy as [_ Hys].
      rewrite (Forall_lookup_1 _ _ _ _ Hys Hyc), (Forall_lookup_1 _ _ _ _ Hovs Hoc).
      lia. }
  erewrite run_bind by (apply run_lift, Hwet).
  erewrite run_bind by reflexivity.
  assert (slice None (Some (Z.of_nat B)) <$> ((λ ch, ch ++ replicate B 0%Q) <$> dry) = dry)
    as ->.
  { rewrite <- list_fmap_compose. rewrite <- (list_fmap_id dry) at 2.
    apply Forall_fmap_ext_1. eapply Forall_impl; [exact Hxs|].
    intros xc Hlxc. cbv beta in Hlxc. unfold compose.
    rewrite slice_to by lia. rewrite Nat2Z.id. rewrite <- Hlxc. apply take_app_length. }
  assert (slice (Some (Z.of_nat B)) None <$> y = (λ yc, take B (drop B yc)) <$> y) as ->.
  { destruct Hy as [_ Hys]. apply Forall_fmap_ext_1.
    eapply Forall_impl; [exact Hys|]. intros yc Hyc. cbv beta in Hyc.
    rewrite slice_from by lia. rewrite Nat2Z.id.
    symmetry. apply take_ge. rewrite length_drop. lia. }
  erewrite run_bind.
  2:{ apply run_lift, op2_same.
      apply Forall2_fmap, Forall2_same_length_lookup_2.
      { unfold wet. rewrite length_zip_with. destruct Hy as [-> _]. lia. }
      intros i wc xc Hwc Hxi. rewrite !length_fmap.
      apply lookup_zip_with_Some in Hwc as (yc & oc & -> & Hyc & Hoc).
      unfold spec_wet. rewrite length_zip_with, length_take.
      destruct Hy as [_ Hys].
      rewrite (Forall_lookup_1 _ _ _ _ Hys Hyc), (Forall_lookup_1 _ _ _ _ Hovs Hoc).
      rewrite (Forall_lookup_1 _ _ _ _ Hxs Hxi). lia. }
  unfold mret, M_ret. apply (f_equal2 pair); [reflexivity|]. do 2 f_equal.
  rewrite zip_with_fmap_l, zip_with_fmap_r.
  apply list_eq. intros i. rewrite !lookup_zip_with.
  destruct (wet !! i) as [wc|]; [|done]. cbn.
  destruct (dry !! i) as [xc|]; [|done]. cbn. f_equal.
  unfold spec_out. by rewrite zip_with_fmap_l, zip_with_fmap_r.
Qed.

Lemma process_block_witness :
  (∀ v, length (dft v) = length v) ∧
  (∀ v, length (idft v) = length v) ∧
  bypass (parameters (example_reverb 1 false)) = false ∧
  engine_ready 2 2 2 (example_reverb 1 false) ∧
  has_shape2 2 2 (to_stereo (Arr1 [3; 5]%Q)) ∧
  ∃ self' out,
    process dft idft (Arr1 [3; 5]%Q) (example_reverb 1 false)
    = (self', Ok (Arr2 out)) ∧
    fmap (M := list) Qred <$> out = [[27 # 10; 93 # 20]; [27 # 10; 93 # 20]]%Q ∧
    fmap (M := list) Qred <$> overlap self' = [[5 # 2; 0]; [5 # 2; 0]]%Q.
Proof.
  assert (bypass (parameters (example_reverb 1 false)) = false) as Hbypass
    by (vm_compute; reflexivity).
  assert (engine_ready 2 2 2 (example_reverb 1 false)) as Hready.
  { split; [vm_compute; reflexivity|]. split; [lia|].
    split; [|split]; (split; [vm_compute; reflexivity|]);
      vm_compute; repeat constructor. }
  assert (has_shape2 2 2 (to_stereo (Arr1 [3; 5]%Q))) as Hx.
  { split; [reflexivity|]. repeat constructor. }
  pose proof (process_block dft idft (Arr1 [3; 5]%Q) 2 2 2 (example_reverb 1 false)
                dft_length idft_length Hbypass Hready Hx) as Hrun.
  cbv zeta in Hrun.
  split; [exact dft_length|]. split; [exact idft_length|].
  split; [exact Hbypass|]. split; [exact Hready|]. split; [exact Hx|].
  eexists _, _. split; [exact Hrun|].
  split; vm_compute; reflexivity.
Defined.

(** ** From [update] to [process] *)

(** A rebuild leaves the object ready for [process]: the hypothesis of
    [process_block] holds after every call of [update] that returns. *)
Lemma update_makes_ready fft power pn (ir : list (list Q)) (L B : nat) self :
  (∀ v, length (fft v) = length v) →
  impulses self !! type_value (parameters self) = Some ir →
  has_shape2 L 2 ir →
  (0 <= decay (parameters self) <= 1)%Q → (0 ≤ sample_rate self)%Z →
  block_size self = Z.of_nat B → 0 < B →
  ∃ nf, (update fft power pn self).2 = Ok tt ∧
        engine_ready B 2 nf (update fft power pn self).1.
Proof.
  intros Hfft Hir Hshape Hd Hsr HB HB0.
  destruct (update_Ok fft power pn ir L B self Hir Hshape Hd Hsr HB HB0)
    as (L' & Hshaped & Hrun).
  destruct (pad_arith B L' HB0) as (_ & Hsum & _).
  rewrite Hrun. cbn [fst snd]. exists (L' / B + 1). split; [reflexivity|].
  set (t := spec_partitions B (L' / B + 1) <$> _).
  assert (has_shape3 (B + B) 2 (L' / B + 1) t) as Ht.
  { apply spec_partitions_shape. destruct Hshaped as [Hlen Ha].
    split; [by rewrite length_fmap|].
    apply Forall_fmap. eapply Forall_impl; [exact Ha|]. intros ch Hch.
    cbv beta in Hch. unfold compose. rewrite length_app, length_replicate. lia. }
  unfold engine_ready, rebuilt. cbn.
  split; [done|]. split; [lia|]. split; [|split].
  - apply has_shape3_fmap; [done|].
    rewrite (zeros_like_shape _ _ _ _ Ht). apply has_shape3_replicate.
  - by apply has_shape3_fmap.
  - destruct Ht as [-> _]. split; [apply length_replicate|].
    apply Forall_replicate, length_replicate.
Qed.

Lemma update_resets_history_witness :
  impulses (example_played 0.5) !! type_value (parameters (example_played 0.5))
  = Some (scaled example_wav) ∧
  has_shape2 3 2 (scaled example_wav) ∧
  overlap (example_played 0.5) ≠ replicate 2 (replicate 2 0%Q) ∧
  ∃ self' nf,
    update dft pow_int None (example_played 0.5) = (self', Ok tt) ∧
    self_X self' = replicate 2 (replicate nf (dft (replicate (2 + 2) 0%Q))) ∧
    overlap self' = replicate 2 (replicate 2 0%Q).
Proof.
  assert (has_shape2 3 2 (scaled example_wav)) as Hshape.
  { split; [reflexivity|]. repeat constructor. }
  assert (impulses (example_played 0.5) !! type_value (parameters (example_played 0.5))
          = Some (scaled example_wav)) as Hir by (vm_compute; reflexivity).
  destruct (update_resets_history dft pow_int None (example_played 0.5))
    as [_ Hreset].
  destruct (Hreset (scaled example_wav) 3 2 Hir Hshape)
    as (self' & nf & Hrun & _ & _ & _ & HX & Hov).
  - split; vm_compute; discriminate.
  - vm_compute. discriminate.
  - vm_compute. reflexivity.
  - lia.
  - split; [exact Hir|]. split; [exact Hshape|].
    split; [vm_compute; discriminate|].
    exists self', nf. by repeat split.
Defined.
